(** * antichonk: a shallow embedding of [antichonk.py]

    The program scans a directory ([main]), builds one [File] per non-directory
    entry, ranks the files ([File.files_by_size] / [File.files_by_age]) and runs
    the interactive [StateMachine] over the ranking.

    Modelling choices:
    - a path is the list of its components below "/" ("/x/a" is ["x";"a"]);
    - the filesystem is a listing of entries, each a regular file (with its
      size and its age in days at scan time) or a directory, plus the paths
      whose removal the OS refuses (permission denied);
    - Python exceptions are identified by their class name;
    - the process state holds the filesystem, the two class-level lists
      [StateMachine.directories_to_ignore] and [File.files], the input stream
      read by [input()], the visible output events, and the maximal depth of
      nested [transition]/[advance] frames reached so far;
    - the session fields ([self.files], [self.current_file]) are kept next to
      it; [self.current_file] is represented by its index in [self.files]
      (the File objects of one ranking are distinct, so [files.index] returns
      exactly that index). *)

From Stdlib Require Import List String ZArith Lia Bool Sorting.Sorted
  Sorting.Permutation.
Import ListNotations.
Open Scope string_scope.
Open Scope list_scope.

(** ** Paths *)

Definition path := list string.

Fixpoint path_eqb (p q : path) : bool :=
  match p, q with
  | [], [] => true
  | a :: p', b :: q' => String.eqb a b && path_eqb p' q'
  | _, _ => false
  end.

(** [path_prefix d p]: [p] is [d] or lies below [d]. *)
Fixpoint path_prefix (d p : path) : bool :=
  match d, p with
  | [], _ => true
  | a :: d', b :: p' => String.eqb a b && path_prefix d' p'
  | _ :: _, [] => false
  end.

(** [os.path.dirname] *)
Definition dirname (p : path) : path := removelast p.

(** ** Records: [class File] *)

Record File := mkFile {
  size_in_bytes : Z;
  f_path : path;
  directory : path;
  age_in_days : Z
}.

(** The field values set by [File.__init__] ([determine_directory] is
    [os.path.dirname(self.path)]). *)
Definition file_fields (p : path) (size : Z) (age : Z) : File :=
  mkFile size p (dirname p) age.

(** ** The filesystem *)

Inductive kind := KFile (size : Z) (age : Z) | KDir.

Record FS := mkFS {
  entries : list (path * kind);
  locked : list path
}.

Fixpoint lookup (es : list (path * kind)) (p : path) : option kind :=
  match es with
  | [] => None
  | (q, k) :: es' => if path_eqb p q then Some k else lookup es' p
  end.

(** [os.path.exists] *)
Definition os_path_exists (fs : FS) (p : path) : bool :=
  match lookup (entries fs) p with Some _ => true | None => false end.

(** [os.path.isdir] *)
Definition os_path_isdir (fs : FS) (p : path) : bool :=
  match lookup (entries fs) p with Some KDir => true | _ => false end.

Definition exn := string.

(** [os.remove] *)
Definition os_remove (fs : FS) (p : path) : exn + FS :=
  match lookup (entries fs) p with
  | None => inl "FileNotFoundError"
  | Some KDir => inl "IsADirectoryError"
  | Some (KFile _ _) =>
      if existsb (path_eqb p) (locked fs) then inl "PermissionError"
      else inr (mkFS (filter (fun e => negb (path_eqb p (fst e))) (entries fs))
                     (locked fs))
  end.

(** [shutil.rmtree]; on an error the partial removal done before the raise
    is not modelled (the error ends the run either way). *)
Definition shutil_rmtree (fs : FS) (d : path) : exn + FS :=
  match lookup (entries fs) d with
  | None => inl "FileNotFoundError"
  | Some (KFile _ _) => inl "NotADirectoryError"
  | Some KDir =>
      if existsb (path_prefix d) (locked fs) then inl "PermissionError"
      else inr (mkFS (filter (fun e => negb (path_prefix d (fst e))) (entries fs))
                     (locked fs))
  end.

(** ** [glob.glob(directory + "/**/*", recursive=True)]

    The CPython [glob] module ([_iglob], [_glob0], [_glob1], [_glob2],
    [_rlistdir], with [include_hidden=False]) and the [fnmatch] patterns it
    matches names with. Every component of the argument is a pattern: a
    component containing [*], [?] or [[] is matched against the names of a
    listed directory, the others are taken literally. *)

(** [Path(p).name]: the last component, [""] for "/". *)
Definition path_name (p : path) : string := last p "".

(** [d] is the parent of [q]. *)
Definition is_child (d q : path) : bool :=
  path_prefix d q && Nat.eqb (List.length q) (S (List.length d)).

(** [_ishidden]: the name starts with a dot. *)
Definition hidden_name (s : string) : bool := String.prefix "." s.

(** The bytes of a [str] built by [os.fsdecode] / [sys.argv]. *)
Definition bytes_of (s : string) : list N :=
  map Ascii.N_of_ascii (list_ascii_of_string s).

Definition utf8_cont (b : N) : bool := (N.leb 128 b && N.ltb b 192)%bool.

(** The characters of the [str]: UTF-8 decoding with [surrogateescape] (a
    byte [b] that does not start a well-formed sequence gives [U+DC00 + b]). *)
Fixpoint utf8_decode (bs : list N) : list N :=
  match bs with
  | [] => []
  | b0 :: r0 =>
      let esc := N.add 56320 b0 :: utf8_decode r0 in
      if N.ltb b0 128 then b0 :: utf8_decode r0
      else if (N.leb 194 b0 && N.leb b0 223)%bool then
        match r0 with
        | b1 :: r1 =>
            if utf8_cont b1
            then N.add (N.mul (N.sub b0 192) 64) (N.sub b1 128) :: utf8_decode r1
            else esc
        | [] => esc
        end
      else if (N.leb 224 b0 && N.leb b0 239)%bool then
        match r0 with
        | b1 :: b2 :: r2 =>
            if (utf8_cont b1 && utf8_cont b2
                && (negb (N.eqb b0 224) || N.leb 160 b1)
                && (negb (N.eqb b0 237) || N.ltb b1 160))%bool
            then N.add (N.add (N.mul (N.sub b0 224) 4096) (N.mul (N.sub b1 128) 64))
                       (N.sub b2 128) :: utf8_decode r2
            else esc
        | _ => esc
        end
      else if (N.leb 240 b0 && N.leb b0 244)%bool then
        match r0 with
        | b1 :: b2 :: b3 :: r3 =>
            if (utf8_cont b1 && utf8_cont b2 && utf8_cont b3
                && (negb (N.eqb b0 240) || N.leb 144 b1)
                && (negb (N.eqb b0 244) || N.ltb b1 144))%bool
            then N.add (N.add (N.mul (N.sub b0 240) 262144) (N.mul (N.sub b1 128) 4096))
                       (N.add (N.mul (N.sub b2 128) 64) (N.sub b3 128)) :: utf8_decode r3
            else esc
        | _ => esc
        end
      else esc
  end.

Definition code_points (s : string) : list N := utf8_decode (bytes_of s).

(** [has_magic]: the text contains [*], [?] or [[]. *)
Definition has_magic (s : string) : bool :=
  existsb (fun c => N.eqb c 42 || N.eqb c 63 || N.eqb c 91)%bool (bytes_of s).

(** The regular expression [fnmatch.translate] builds, token by token: [*]
    (runs of stars compressed), [?], a bracket set (negated or not, its
    members as inclusive ranges), a literal character. *)
Inductive pat_tok :=
  | PStar
  | PAny
  | PSet (neg : bool) (items : list (N * N))
  | PLit (c : N).

(** [pat.find('-', k, j)] over the text [s] of a bracket expression. *)
Definition find_dash (s : list N) (k j : nat) : option nat :=
  find (fun i => N.eqb (nth i s 0%N) 45) (seq k (j - k)).

Definition sublist (s : list N) (i j : nat) : list N := firstn (j - i) (skipn i s).

(** The [while True] loop cutting [s] into chunks at hyphens: the chunks found,
    and the start [i] of the rest. *)
Fixpoint split_chunks (fuel : nat) (s : list N) (i k : nat) : list (list N) * nat :=
  match fuel with
  | O => ([], i)
  | S fuel' =>
      match find_dash s k (List.length s) with
      | None => ([], i)
      | Some k' =>
          let '(cs, i') := split_chunks fuel' s (S k') (k' + 3) in
          (sublist s i k' :: cs, i')
      end
  end.

Definition class_chunks (s : list N) : list (list N) :=
  let k0 := match s with c :: _ => if N.eqb c 33 then 2 else 1 | [] => 1 end in
  let '(cs, i) := split_chunks (List.length s) s 0 k0 in
  match skipn i s with
  | [] => removelast cs ++ [last cs [] ++ [45%N]]
  | chunk => cs ++ [chunk]
  end.

(** The [for k in range(len(chunks)-1, 0, -1)] loop that removes empty
    ranges, from the right. *)
Fixpoint drop_empty_ranges (cs : list (list N)) : list (list N) :=
  match cs with
  | [] => []
  | c :: rest =>
      match drop_empty_ranges rest with
      | [] => [c]
      | d :: rest' =>
          if N.ltb (hd 0%N d) (last c 0%N) then (removelast c ++ tl d) :: rest'
          else c :: d :: rest'
      end
  end.

(** The text of the set in the regular expression: escaped characters, and
    the unescaped hyphens that join chunks. *)
Inductive set_atom := ALit (c : N) | ADash.

Definition atom_char (a : set_atom) : N := match a with ALit c => c | ADash => 45 end.

Fixpoint join_chunks (cs : list (list N)) : list set_atom :=
  match cs with
  | [] => []
  | [c] => map ALit c
  | c :: cs' => map ALit c ++ ADash :: join_chunks cs'
  end.

Definition stuff_atoms (s : list N) : list set_atom :=
  if existsb (N.eqb 45) s then join_chunks (drop_empty_ranges (class_chunks s))
  else map ALit s.

(** [sre_parse] of the set body: [x-y] with an unescaped hyphen is a range, a
    hyphen at the end a literal. *)
Fixpoint parse_class (atoms : list set_atom) : list (N * N) :=
  match atoms with
  | [] => []
  | a :: r =>
      let c := atom_char a in
      match r with
      | ADash :: b :: r' => (c, atom_char b) :: parse_class r'
      | [ADash] => [(c, c); (45%N, 45%N)]
      | _ => (c, c) :: parse_class r
      end
  end.

(** The set for the bracket text [s]: empty text matches nothing, [!] any
    character, a leading [!] negates. *)
Definition class_tok (s : list N) : pat_tok :=
  let atoms := stuff_atoms s in
  match atoms with
  | ALit c :: rest =>
      if N.eqb c 33 then PSet true (parse_class rest) else PSet false (parse_class atoms)
  | _ => PSet false (parse_class atoms)
  end.

(** The text after [[] up to the closing []] (an optional [!], then an
    optional []], belong to the text); [None] if unclosed. *)
Fixpoint upto_close (r : list N) : option (list N * list N) :=
  match r with
  | [] => None
  | c :: t =>
      if N.eqb c 93 then Some ([], t)
      else match upto_close t with Some (b, rest) => Some (c :: b, rest) | None => None end
  end.

Definition class_end (r : list N) : option (list N * list N) :=
  let '(p1, r1) := match r with
                   | c :: t => if N.eqb c 33 then ([c], t) else ([], r)
                   | [] => ([], r) end in
  let '(p2, r2) := match r1 with
                   | c :: t => if N.eqb c 93 then (p1 ++ [c], t) else (p1, r1)
                   | [] => (p1, r1) end in
  match upto_close r2 with
  | Some (body, rest) => Some (p2 ++ body, rest)
  | None => None
  end.

Fixpoint drop_stars (p : list N) : list N :=
  match p with
  | c :: r => if N.eqb c 42 then drop_stars r else p
  | [] => []
  end.

(** [fnmatch.translate]; each step consumes a character, so [fuel] above the
    length is enough. *)
Fixpoint translate (fuel : nat) (p : list N) : list pat_tok :=
  match fuel with
  | O => []
  | S fuel' =>
      match p with
      | [] => []
      | c :: r =>
          if N.eqb c 42 then PStar :: translate fuel' (drop_stars r)
          else if N.eqb c 63 then PAny :: translate fuel' r
          else if N.eqb c 91 then
            match class_end r with
            | Some (s, r') => class_tok s :: translate fuel' r'
            | None => PLit c :: translate fuel' r
            end
          else PLit c :: translate fuel' r
      end
  end.

Definition in_items (c : N) (items : list (N * N)) : bool :=
  existsb (fun r => (N.leb (fst r) c && N.leb c (snd r))%bool) items.

(** A full match of the regular expression (with [DOTALL]). *)
Fixpoint tok_match (ts : list pat_tok) (s : list N) : bool :=
  match ts with
  | [] => match s with [] => true | _ => false end
  | PStar :: ts' =>
      (fix star (s : list N) : bool :=
         tok_match ts' s || match s with [] => false | _ :: s' => star s' end) s
  | PAny :: ts' => match s with [] => false | _ :: s' => tok_match ts' s' end
  | PSet neg items :: ts' =>
      match s with
      | [] => false
      | c :: s' => xorb neg (in_items c items) && tok_match ts' s'
      end
  | PLit c0 :: ts' =>
      match s with [] => false | c :: s' => N.eqb c c0 && tok_match ts' s' end
  end.

(** [fnmatch.fnmatch(name, pat)] on POSIX ([normcase] is the identity). *)
Definition fnmatch (name pat : string) : bool :=
  let cp := code_points pat in
  tok_match (translate (S (List.length cp)) cp) (code_points name).

(** [_listdir(dirname, dir_fd, dironly)]: the names in [d], in listing order;
    only directories when [dironly]; nothing when [d] cannot be scanned. *)
Definition listdir (fs : FS) (d : path) (dironly : bool) : list string :=
  if os_path_isdir fs d then
    map (fun e => path_name (fst e))
        (filter (fun e => is_child d (fst e) && (negb dironly || os_path_isdir fs (fst e)))%bool
                (entries fs))
  else [].

(** [_glob1]: the names in [d] matching the pattern, hidden names dropped
    unless the pattern starts with a dot; as paths relative to [d]. *)
Definition glob1 (fs : FS) (d : path) (pat : string) (dironly : bool) : list path :=
  let names := listdir fs d dironly in
  let names := if hidden_name pat then names
               else filter (fun x => negb (hidden_name x)) names in
  map (fun x => [x]) (filter (fun x => fnmatch x pat) names).

(** [_glob0]: a literal component, kept if the path exists. *)
Definition glob0 (fs : FS) (d : path) (b : string) : list path :=
  if String.eqb b "" then (if os_path_isdir fs d then [[]] else [])
  else if os_path_exists fs (d ++ [b]) then [[b]] else [].

(** [_rlistdir]: the non-hidden names below [d], each followed by those
    below it, depth first. *)
Fixpoint rlistdir (fuel : nat) (fs : FS) (d : path) (dironly : bool) : list path :=
  match fuel with
  | O => []
  | S fuel' =>
      flat_map (fun x => if hidden_name x then []
                         else [x] :: map (cons x) (rlistdir fuel' fs (d ++ [x]) dironly))
               (listdir fs d dironly)
  end.

(** [_glob2] for [**]: [d] itself (the empty relative path) if it is a
    directory (CPython 3.11 on; earlier versions yield it unconditionally,
    which adds nothing after [*] lists it), then [_rlistdir]. *)
Definition glob2 (fuel : nat) (fs : FS) (d : path) (dironly : bool) : list path :=
  (if os_path_isdir fs d then [[]] else []) ++ rlistdir fuel fs d dironly.

(** [_iglob] on the components of the pattern, given last first. *)
Fixpoint iglob (fuel : nat) (fs : FS) (rpat : list string) (dironly : bool) : list path :=
  match rpat with
  | [] => if os_path_isdir fs [] then [[]] else []
  | b :: rdir =>
      if negb (existsb has_magic rpat) then
        if String.eqb b "" then (if os_path_isdir fs (rev rdir) then [rev rdir] else [])
        else if os_path_exists fs (rev rpat) then [rev rpat] else []
      else
        let dirs := if existsb has_magic rdir then iglob fuel fs rdir true
                    else [rev rdir] in
        let in_dir d :=
          if has_magic b then
            if String.eqb b "**" then glob2 fuel fs d dironly else glob1 fs d b dironly
          else glob0 fs d b in
        flat_map (fun d => map (fun rel => d ++ rel) (in_dir d)) dirs
  end.

(** A bound on the directory nesting, above the length of every path. *)
Definition glob_fuel (fs : FS) : nat :=
  S (list_max (map (fun e => List.length (fst e)) (entries fs))).

(** [glob.glob(directory + "/**/*", recursive=True)] in [main]: every
    component of [directory] is read as a pattern, then [**] and [*]. *)
Definition glob (fs : FS) (root : path) : list path :=
  iglob (glob_fuel fs) fs (rev (root ++ ["**"; "*"])) false.

(** The paths lying literally below [root] with no hidden component below
    it: what [glob] returns for a [root] free of pattern characters. *)
Fixpoint visible_below (root p : path) : bool :=
  match root, p with
  | [], [] => false
  | [], rel => forallb (fun s => negb (hidden_name s)) rel
  | a :: root', b :: p' => String.eqb a b && visible_below root' p'
  | _ :: _, [] => false
  end.

(** ** Process and session state *)

Inductive event :=
  | ERender (p : path)      (* [File.print_as_tree] of the record at [p] *)
  | EInput (t : string)     (* one line read by [input()] *)
  | EHelp.                  (* the legend of [StateMachine.print_help] *)

Record St := mkSt {
  fs : FS;
  directories_to_ignore : list path;   (* class attribute of StateMachine *)
  all_files : list File;               (* class attribute File.files *)
  files : list File;                   (* self.files of the session *)
  cur : nat;                           (* index of self.current_file *)
  inputs : list string;
  out : list event;
  maxdepth : nat
}.

Definition set_fs (x : FS) (s : St) : St :=
  mkSt x (directories_to_ignore s) (all_files s) (files s) (cur s) (inputs s) (out s) (maxdepth s).
Definition set_ignored (x : list path) (s : St) : St :=
  mkSt (fs s) x (all_files s) (files s) (cur s) (inputs s) (out s) (maxdepth s).
Definition set_all_files (x : list File) (s : St) : St :=
  mkSt (fs s) (directories_to_ignore s) x (files s) (cur s) (inputs s) (out s) (maxdepth s).
Definition set_files (x : list File) (s : St) : St :=
  mkSt (fs s) (directories_to_ignore s) (all_files s) x (cur s) (inputs s) (out s) (maxdepth s).
Definition set_cur (x : nat) (s : St) : St :=
  mkSt (fs s) (directories_to_ignore s) (all_files s) (files s) x (inputs s) (out s) (maxdepth s).
Definition set_inputs (x : list string) (s : St) : St :=
  mkSt (fs s) (directories_to_ignore s) (all_files s) (files s) (cur s) x (out s) (maxdepth s).
Definition set_out (x : list event) (s : St) : St :=
  mkSt (fs s) (directories_to_ignore s) (all_files s) (files s) (cur s) (inputs s) x (maxdepth s).
Definition set_maxdepth (x : nat) (s : St) : St :=
  mkSt (fs s) (directories_to_ignore s) (all_files s) (files s) (cur s) (inputs s) (out s) x.

(** ** A state and exception monad; [NoFuel] marks an exhausted step bound. *)

Inductive res (A : Type) :=
  | Ok (a : A) (s : St)
  | Err (e : exn) (s : St)
  | NoFuel (s : St).
Arguments Ok {A}. Arguments Err {A}. Arguments NoFuel {A}.

Definition M (A : Type) := St -> res A.

Definition ret {A} (a : A) : M A := fun s => Ok a s.
Definition raise {A} (e : exn) : M A := fun s => Err e s.
Definition bind {A B} (m : M A) (k : A -> M B) : M B :=
  fun s => match m s with
           | Ok a s' => k a s'
           | Err e s' => Err e s'
           | NoFuel s' => NoFuel s'
           end.
Definition get : M St := fun s => Ok s s.
Definition modify (f : St -> St) : M unit := fun s => Ok tt (f s).

Notation "x <- m ;; k" := (bind m (fun x => k))
  (at level 61, m at next level, right associativity).
Notation "m ;;; k" := (bind m (fun _ => k))
  (at level 61, right associativity).

Definition res_state {A} (r : res A) : St :=
  match r with Ok _ s | Err _ s | NoFuel s => s end.

Definition emit (e : event) : M unit :=
  modify (fun s => set_out (out s ++ [e]) s).

(** ** [File.files], [File.__init__] and the rankings *)

(** [File(path, size, age)]: builds the record and appends it to the
    class-level list [File.files]. *)
Definition File_new (p : path) (size age : Z) : M unit :=
  modify (fun s => set_all_files (all_files s ++ [file_fields p size age]) s).

(** [sorted(xs, key=key)]: CPython's sort is stable; on a total preorder every
    stable sort returns the same list, here computed by insertion. *)
Fixpoint insert_by (key : File -> Z) (x : File) (l : list File) : list File :=
  match l with
  | [] => [x]
  | y :: l' => if Z.ltb (key y) (key x) then y :: insert_by key x l' else x :: l
  end.

Fixpoint sort_by (key : File -> Z) (l : list File) : list File :=
  match l with
  | [] => []
  | x :: l' => insert_by key x (sort_by key l')
  end.

(** [sorted(xs, key=key, reverse=rev)]: with [reverse=True] CPython reverses
    the list, sorts it stably and reverses the result. *)
Definition sorted (key : File -> Z) (reverse : bool) (l : list File) : list File :=
  if reverse then rev (sort_by key (rev l)) else sort_by key l.

(** [File.files_by_size] and [File.files_by_age], applied to [File.files]. *)
Definition files_by_size (klass_files : list File) : list File :=
  sorted size_in_bytes false klass_files.

Definition files_by_age (klass_files : list File) : list File :=
  sorted age_in_days true klass_files.

(** ** The scan of [main] *)

(** The loop body of [main]: skip directories, otherwise [os.path.getsize],
    [os.stat(path).st_ctime] (the age in days is kept in the listing) and
    [File(path, size, age.days)]. *)
Fixpoint scan_loop (ps : list path) : M unit :=
  match ps with
  | [] => ret tt
  | p :: ps' =>
      s <- get;;
      (if os_path_isdir (fs s) p then ret tt
       else match lookup (entries (fs s)) p with
            | Some (KFile size age) => File_new p size age
            | _ => raise "FileNotFoundError"
            end);;;
      scan_loop ps'
  end.

Definition scan (root : path) : M unit :=
  s <- get;; scan_loop (glob (fs s) root).

(** ** [class StateMachine] *)

(** [StateMachine.__init__]: [self.files = files] then
    [self.current_file = files[0]]. *)
Definition StateMachine_init (fl : list File) : M unit :=
  modify (set_files fl);;;
  match fl with
  | [] => raise "IndexError"
  | _ :: _ => modify (set_cur 0)
  end.

Definition current_file : M File :=
  s <- get;;
  match nth_error (files s) (cur s) with
  | Some f => ret f
  | None => raise "IndexError"
  end.

(** Entering a Python frame at nesting depth [d]. *)
Definition enter (d : nat) : M unit :=
  modify (fun s => set_maxdepth (Nat.max (maxdepth s) d) s).

(** [input()] *)
Definition read_input : M string :=
  s <- get;;
  match inputs s with
  | [] => raise "EOFError"
  | t :: r => modify (set_inputs r);;; emit (EInput t);;; ret t
  end.

(** [File.print_as_tree]: prints the record, then [make_tree] lists
    [self.directory] with [iterdir], which raises when it is not a directory. *)
Definition print_as_tree (f : File) : M unit :=
  emit (ERender (f_path f));;;
  s <- get;;
  if os_path_isdir (fs s) (directory f) then ret tt
  else if os_path_exists (fs s) (directory f) then raise "NotADirectoryError"
  else raise "FileNotFoundError".

(** [StateMachine.prompt] *)
Definition prompt : M string :=
  f <- current_file;; print_as_tree f;;; read_input.

(** [StateMachine.advance], given the [transition] it calls back. *)
Definition advance (tr : nat -> M unit) (d : nat) : M unit :=
  enter d;;;
  s <- get;;
  if Nat.leb (List.length (files s)) (S (cur s)) then ret tt
  else modify (set_cur (S (cur s)));;; tr (S d).

(** [File.delete_file] then [StateMachine.advance]. *)
Definition delete_file (tr : nat -> M unit) (d : nat) (f : File) : M unit :=
  s <- get;;
  match os_remove (fs s) (f_path f) with
  | inl e => raise e
  | inr fs' => modify (set_fs fs');;; advance tr (S d)
  end.

(** [File.delete_file_directory] then [StateMachine.advance]. *)
Definition delete_file_directory (tr : nat -> M unit) (d : nat) (f : File) : M unit :=
  s <- get;;
  match shutil_rmtree (fs s) (directory f) with
  | inl e => raise e
  | inr fs' => modify (set_fs fs');;; advance tr (S d)
  end.

Definition skip (tr : nat -> M unit) (d : nat) : M unit := advance tr (S d).

Definition skip_directory (tr : nat -> M unit) (d : nat) (f : File) : M unit :=
  modify (fun s => set_ignored (directories_to_ignore s ++ [directory f]) s);;;
  advance tr (S d).

(** [StateMachine.print_help]: the legend, then [return self.transition()]. *)
Definition print_help (tr : nat -> M unit) (d : nat) : M unit :=
  emit EHelp;;; tr (S d).

(** The body of [transition] after [choice = self.prompt()]: the lookup in
    [self.actions], or [return self.transition()] for any other token. *)
Definition dispatch (tr : nat -> M unit) (d : nat) (choice : string) (f : File) : M unit :=
  if String.eqb choice "d" then delete_file tr (S d) f
  else if String.eqb choice "D" then delete_file_directory tr (S d) f
  else if String.eqb choice "s" then skip tr (S d)
  else if String.eqb choice "S" then skip_directory tr (S d) f
  else if String.eqb choice "?" then print_help tr (S d)
  else tr (S d).

(** [StateMachine.transition], at frame depth [d], with a bound [fuel] on the
    number of nested calls. Note that the two [self.advance()] calls are not
    followed by a [return]: once they come back, the body goes on with the
    (possibly moved) [self.current_file]. *)
Fixpoint transition (fuel d : nat) : M unit :=
  match fuel with
  | O => fun s => NoFuel s
  | S n =>
      enter d;;;
      f <- current_file;;
      s <- get;;
      (if negb (os_path_exists (fs s) (f_path f))
       then advance (transition n) (S d) else ret tt);;;
      f <- current_file;;
      s <- get;;
      (if existsb (path_eqb (directory f)) (directories_to_ignore s)
       then advance (transition n) (S d) else ret tt);;;
      choice <- prompt;;
      f <- current_file;;
      dispatch (transition n) d choice f
  end.

(** [main], after the privilege check. *)
Definition main (root : path) (order_by : string) (fuel : nat) : M unit :=
  scan root;;;
  s <- get;;
  fl <- (if String.eqb order_by "age" then ret (files_by_age (all_files s))
         else if String.eqb order_by "size" then ret (files_by_size (all_files s))
         else raise "UnboundLocalError");;
  StateMachine_init fl;;;
  transition fuel 0.

(** What [transition] does once [self.prompt()] has printed the tree: read the
    token and run the chosen action. *)
Definition resume (n d : nat) : M unit :=
  choice <- read_input;; f <- current_file;; dispatch (transition n) d choice f.

(** [f] is [self.current_file] and [transition] reaches [self.prompt()] for it
    without moving: its path exists and its directory is not ignored, or it
    is the last record (then [advance] returns at once); its directory can be
    listed by [print_as_tree]. *)
Definition at_prompt (st : St) (f : File) : Prop :=
  nth_error (files st) (cur st) = Some f /\
  (os_path_exists (fs st) (f_path f) = true /\
   existsb (path_eqb (directory f)) (directories_to_ignore st) = false
   \/ List.length (files st) = S (cur st)) /\
  os_path_isdir (fs st) (directory f) = true.

Definition action_tokens : list string := ["d"; "D"; "s"; "S"].

(** The records [main] builds for one path of the glob: none for a
    directory, one [File] for a file. *)
Definition record_of (fs : FS) (p : path) : list File :=
  if os_path_isdir fs p then []
  else match lookup (entries fs) p with
       | Some (KFile size age) => [file_fields p size age]
       | _ => []
       end.

(** ** Concrete scenarios *)

Definition ex_a : File := file_fields ["x"; "a"] 10 3.
Definition ex_b : File := file_fields ["x"; "b"] 5 2.
Definition ex_fs : FS :=
  mkFS [(["x"], KDir); (["x"; "a"], KFile 10 3); (["x"; "b"], KFile 5 2)] [].
Definition ex_state (ins : list string) : St := mkSt ex_fs [] [] [] 0 ins [] 0.

(** A session over the ranking [/x/a], [/x/b] on the cursor's first record. *)
Definition ex_session (fs0 : FS) (ins : list string) : St :=
  mkSt fs0 [] [] [ex_a; ex_b] 0 ins [] 0.

(** [ex_fs] where removing [/x/a] is refused. *)
Definition ex_fs_locked : FS := mkFS (entries ex_fs) [["x"; "a"]].

(** The output only grows. *)
Definition out_ext (s s' : St) : Prop := exists l, out s' = out s ++ l.

(** The recorded frame depth only grows. *)
Definition depth_le (s s' : St) : Prop := maxdepth s <= maxdepth s'.

(** The ignored directories only grow, by appending. *)
Definition ignored_ext (s s' : St) : Prop :=
  exists l, directories_to_ignore s' = directories_to_ignore s ++ l.

(** ** [class DisplayablePath]: the tree printed before each prompt *)

(** [str(Path(p))] *)
Definition path_str (p : path) : string :=
  match p with
  | [] => "/"
  | _ => String.concat "" (map (fun c => String.append "/" c) p)
  end.

(** Python's [<] on [str]: the code points, compared lexicographically. *)
Fixpoint cp_ltb (a b : list N) : bool :=
  match a, b with
  | _, [] => false
  | [], _ :: _ => true
  | x :: a', y :: b' => if N.ltb x y then true else if N.eqb x y then cp_ltb a' b' else false
  end.

Section Tree.

(** [str.lower()] on the code points of a string: Python's Unicode case
    mapping, a table the model takes as given. *)
Variable str_lower : list N -> list N.

(** [sorted(children, key=lambda s: str(s).lower())], stable. *)
Definition tree_key (p : path) : list N := str_lower (code_points (path_str p)).

Fixpoint insert_path (x : path) (l : list path) : list path :=
  match l with
  | [] => [x]
  | y :: l' => if cp_ltb (tree_key y) (tree_key x) then y :: insert_path x l' else x :: l
  end.

Fixpoint sort_paths (l : list path) : list path :=
  match l with
  | [] => []
  | x :: l' => insert_path x (sort_paths l')
  end.

(** [root.iterdir()]: the entries one level below [d], in listing order. *)
Definition iterdir (fs : FS) (d : path) : list path :=
  map fst (filter (fun e => is_child d (fst e)) (entries fs)).

Local Set Warnings "-register-all".

(** A [DisplayablePath] object: its path, [child_to_highlight], its parent
    object, [is_last] and [depth]. *)
Inductive node := Node (np : path) (highlight : string) (parent : option node)
                       (is_last : bool) (depth : nat).

Definition np (n : node) : path := let (p, _, _, _, _) := n in p.
Definition n_parent (n : node) : option node := let (_, _, q, _, _) := n in q.
Definition n_is_last (n : node) : bool := let (_, _, _, b, _) := n in b.
Definition n_depth (n : node) : nat := let (_, _, _, _, k) := n in k.

(** [DisplayablePath.__init__] *)
Definition mk_node (p : path) (hl : string) (parent : option node) (last : bool) : node :=
  Node p hl parent last
       (match parent with Some q => S (n_depth q) | None => 0 end).

(** The [for path in children] loop of [make_tree]: [sub c is_last] is the
    recursive [make_tree] call for a directory [c], [leaf c is_last] the node
    yielded for a file; an exception stops the loop. *)
Fixpoint children_loop (fs : FS) (sub : path -> bool -> list node * option exn)
         (leaf : path -> bool -> node) (total : nat) (cs : list path) (count : nat)
         : list node * option exn :=
  match cs with
  | [] => ([], None)
  | c :: cs' =>
      let is_last := Nat.eqb count total in
      let '(ns, err) :=
        if os_path_isdir fs c then sub c is_last else ([leaf c is_last], None) in
      match err with
      | Some e => (ns, Some e)
      | None =>
          let '(ns', err') := children_loop fs sub leaf total cs' (S count) in
          (ns ++ ns', err')
      end
  end.

(** [make_tree]: the node of [root], then, for its children sorted by
    [tree_key], the subtree of a directory or the node of a file. [iterdir]
    raises on a root that is not a directory, after the root was yielded.
    The bound [fuel] is on the directory nesting; [tree_fuel] below exceeds
    the length of every path. *)
Fixpoint make_tree (fuel : nat) (fs : FS) (root : path) (hl : string)
         (parent : option node) (last : bool) : list node * option exn :=
  let me := mk_node root hl parent last in
  match lookup (entries fs) root with
  | None => ([me], Some "FileNotFoundError")
  | Some (KFile _ _) => ([me], Some "NotADirectoryError")
  | Some KDir =>
      match fuel with
      | O => ([me], Some "RecursionError")
      | S fuel' =>
          let children := sort_paths (iterdir fs root) in
          let '(ns, err) :=
            children_loop fs (fun c l => make_tree fuel' fs c hl (Some me) l)
                          (fun c l => mk_node c hl (Some me) l)
                          (List.length children) children 1 in
          (me :: ns, err)
      end
  end.

Definition tree_fuel (fs : FS) : nat :=
  S (list_max (map (fun e => List.length (fst e)) (entries fs))).

Definition OKGREEN : string := String (Ascii.ascii_of_nat 27) "[92m".
Definition ENDC : string := String (Ascii.ascii_of_nat 27) "[0m".

(** The [displayname] property in force (the second definition in the class
    body replaces the first). *)
Definition displayname (fs : FS) (n : node) : string :=
  let (p, hl, _, _, _) := n in
  if os_path_isdir fs p then String.append (path_name p) "/"
  else if String.eqb (path_str p) hl then String.append OKGREEN (String.append (path_name p) ENDC)
  else path_name p.

(** The [while parent and parent.parent is not None] loop of [displayable],
    started at [self.parent]. *)
Fixpoint ancestor_parts (n : node) : list string :=
  let (_, _, q, last, _) := n in
  match q with
  | None => []
  | Some q' => (if last then "    " else "│   ") :: ancestor_parts q'
  end.

(** [DisplayablePath.displayable] *)
Definition displayable (fs : FS) (n : node) : string :=
  match n_parent n with
  | None => displayname fs n
  | Some q =>
      let prefix := if n_is_last n then "└──" else "├──" in
      String.concat "" (rev (String.append prefix (String.append " " (displayname fs n))
                             :: ancestor_parts q))
  end.

(** [File.print_as_tree]: the printed lines, and the exception that stops it. *)
Definition tree_lines (fs : FS) (f : File) : list string * option exn :=
  let '(ns, err) := make_tree (tree_fuel fs) fs (directory f) (path_str (f_path f)) None false in
  (String.append "Absolute path: " (path_str (f_path f)) :: map (displayable fs) ns, err).

End Tree.

(** [str.lower()] on a string of ASCII characters: [A]-[Z] to [a]-[z]. The
    concrete examples below have ASCII names only. *)
Definition ascii_lower (cs : list N) : list N :=
  map (fun c => if (N.leb 65 c && N.leb c 90)%bool then N.add c 32 else c) cs.

(** * Proofs *)

Lemma path_eqb_eq : forall p q, path_eqb p q = true <-> p = q.
Proof.
  induction p as [|a p IH]; destruct q as [|b q]; simpl; try easy.
  rewrite andb_true_iff, String.eqb_eq, IH.
  split; [intros [-> ->]; reflexivity | intros H; injection H; auto].
Qed.

(** ** The rankings *)

Section Sorting.

Variable key : File -> Z.

Definition key_le (a b : File) : Prop := (key a <= key b)%Z.

Lemma insert_by_perm : forall x l, Permutation (insert_by key x l) (x :: l).
Proof.
  intros x l; induction l as [|y l IH]; simpl; [reflexivity|].
  destruct (Z.ltb (key y) (key x)); [|reflexivity].
  rewrite IH. apply perm_swap.
Qed.

Lemma sort_by_perm : forall l, Permutation (sort_by key l) l.
Proof.
  induction l as [|x l IH]; simpl; [reflexivity|].
  rewrite insert_by_perm. auto.
Qed.

Lemma insert_by_strongly_sorted : forall x l,
  StronglySorted key_le l -> StronglySorted key_le (insert_by key x l).
Proof.
  intros x l; induction l as [|y l IH]; simpl; intros Hs.
  - repeat constructor.
  - apply StronglySorted_inv in Hs as [Hl Hy].
    destruct (Z.ltb (key y) (key x)) eqn:Hlt.
    + apply Z.ltb_lt in Hlt. constructor; [auto|].
      apply Forall_forall. intros z Hz.
      apply (Permutation_in _ (insert_by_perm x l)) in Hz as [<-|Hz].
      * unfold key_le; lia.
      * rewrite Forall_forall in Hy; auto.
    + apply Z.ltb_ge in Hlt. constructor; [constructor; auto|].
      constructor; [unfold key_le; lia|].
      rewrite Forall_forall in Hy |- *. intros z Hz.
      specialize (Hy z Hz). unfold key_le in *; lia.
Qed.

Lemma sort_by_strongly_sorted : forall l, StronglySorted key_le (sort_by key l).
Proof.
  induction l as [|x l IH]; simpl; [constructor|].
  apply insert_by_strongly_sorted; auto.
Qed.

(** Inserting [x] keeps, for every key value, the relative order: the
    elements passed over have a smaller key than [x]. *)
Lemma insert_by_filter : forall k x l,
  filter (fun f => Z.eqb (key f) k) (insert_by key x l) =
  filter (fun f => Z.eqb (key f) k) (x :: l).
Proof.
  intros k x l; induction l as [|y l IH]; simpl; [reflexivity|].
  destruct (Z.ltb (key y) (key x)) eqn:Hlt; [|reflexivity].
  apply Z.ltb_lt in Hlt. simpl. rewrite IH. simpl.
  destruct (Z.eqb (key x) k) eqn:Hx, (Z.eqb (key y) k) eqn:Hy; try reflexivity.
  apply Z.eqb_eq in Hx, Hy. lia.
Qed.

Lemma sort_by_filter : forall k l,
  filter (fun f => Z.eqb (key f) k) (sort_by key l) =
  filter (fun f => Z.eqb (key f) k) l.
Proof.
  intros k; induction l as [|x l IH]; simpl; [reflexivity|].
  rewrite insert_by_filter. simpl. rewrite IH. reflexivity.
Qed.

End Sorting.

Lemma strongly_sorted_snoc {A} (R : A -> A -> Prop) : forall l x,
  StronglySorted R l -> Forall (fun y => R y x) l -> StronglySorted R (l ++ [x]).
Proof.
  induction l as [|y l IH]; simpl; intros x Hs Hf.
  - repeat constructor.
  - apply StronglySorted_inv in Hs as [Hl Hy]. inversion Hf; subst.
    constructor; [auto|]. apply Forall_app; split; auto.
Qed.

Lemma strongly_sorted_rev {A} (R : A -> A -> Prop) : forall l,
  StronglySorted R l -> StronglySorted (fun a b => R b a) (rev l).
Proof.
  induction l as [|y l IH]; simpl; intros Hs; [constructor|].
  apply StronglySorted_inv in Hs as [Hl Hy].
  apply strongly_sorted_snoc; auto.
  rewrite Forall_forall in Hy |- *. intros z Hz. apply Hy, in_rev; exact Hz.
Qed.

(** C2: [files_by_size] is non-decreasing in [size_in_bytes], [files_by_age]
    non-increasing in [age_in_days]; both return the same records, and both
    are stable: for every key value, the records with that key keep their
    relative order in [File.files]. *)
Theorem rankings_sorted_stable : forall l : list File,
  Sorted (fun a b => (size_in_bytes a <= size_in_bytes b)%Z) (files_by_size l) /\
  Sorted (fun a b => (age_in_days b <= age_in_days a)%Z) (files_by_age l) /\
  Permutation (files_by_size l) l /\
  Permutation (files_by_age l) l /\
  (forall k, filter (fun f => Z.eqb (size_in_bytes f) k) (files_by_size l) =
             filter (fun f => Z.eqb (size_in_bytes f) k) l) /\
  (forall k, filter (fun f => Z.eqb (age_in_days f) k) (files_by_age l) =
             filter (fun f => Z.eqb (age_in_days f) k) l).
Proof.
  intros l. unfold files_by_size, files_by_age, sorted.
  repeat split.
  - apply StronglySorted_Sorted, (sort_by_strongly_sorted size_in_bytes).
  - apply StronglySorted_Sorted.
    apply (strongly_sorted_rev (key_le age_in_days)), sort_by_strongly_sorted.
  - apply sort_by_perm.
  - rewrite <- Permutation_rev, sort_by_perm. symmetry; apply Permutation_rev.
  - intros k. apply sort_by_filter.
  - intros k. rewrite filter_rev, sort_by_filter, filter_rev, rev_involutive.
    reflexivity.
Qed.

(** ** Relations between the state before and after a computation *)

Section Preserve.

Variable R : St -> St -> Prop.
Hypothesis R_refl : forall s, R s s.
Hypothesis R_trans : forall s1 s2 s3, R s1 s2 -> R s2 s3 -> R s1 s3.

Definition pres {A} (m : M A) : Prop := forall s, R s (res_state (m s)).

Lemma pres_ret {A} (a : A) : pres (ret a).
Proof. intros s; apply R_refl. Qed.

Lemma pres_raise {A} (e : exn) : pres (A:=A) (raise e).
Proof. intros s; apply R_refl. Qed.

Lemma pres_get : pres get.
Proof. intros s; apply R_refl. Qed.

Lemma pres_bind {A B} (m : M A) (k : A -> M B) :
  pres m -> (forall a, pres (k a)) -> pres (bind m k).
Proof.
  intros Hm Hk s. specialize (Hm s). unfold bind.
  destruct (m s) as [a s'|e s'|s']; simpl in *; auto.
  eapply R_trans; [exact Hm|apply Hk].
Qed.

Lemma pres_modify (f : St -> St) : (forall s, R s (f s)) -> pres (modify f).
Proof. intros Hf s; apply Hf. Qed.

Hypothesis R_enter : forall d, pres (enter d).
Hypothesis R_fs : forall s x, R s (set_fs x s).
Hypothesis R_cur : forall s x, R s (set_cur x s).
Hypothesis R_ignore : forall s d, R s (set_ignored (directories_to_ignore s ++ [d]) s).
Hypothesis R_inputs : forall s x, R s (set_inputs x s).
Hypothesis R_out : forall s e, R s (set_out (out s ++ [e]) s).

Ltac pres_step :=
  match goal with
  | |- pres (bind _ _) => apply pres_bind; [|intros]
  | |- pres (ret _) => apply pres_ret
  | |- pres (raise _) => apply pres_raise
  | |- pres get => apply pres_get
  | |- pres (enter _) => apply R_enter
  | |- pres (modify _) => apply pres_modify; intros ?
  | |- R ?s (set_fs _ ?s) => apply R_fs
  | |- R ?s (set_cur _ ?s) => apply R_cur
  | |- R ?s (set_ignored _ ?s) => apply R_ignore
  | |- R ?s (set_inputs _ ?s) => apply R_inputs
  | |- R ?s (set_out _ ?s) => apply R_out
  | |- pres (if ?b then _ else _) => destruct b
  | |- pres (match ?x with _ => _ end) => destruct x
  end.

Lemma pres_current_file : pres current_file.
Proof. unfold current_file. repeat pres_step. Qed.

Lemma pres_prompt : pres prompt.
Proof.
  unfold prompt, print_as_tree, read_input, emit.
  repeat (pres_step || apply pres_current_file).
Qed.

Lemma pres_advance (tr : nat -> M unit) d :
  (forall d', pres (tr d')) -> pres (advance tr d).
Proof.
  intros Htr. unfold advance. repeat pres_step; auto.
Qed.

Lemma pres_dispatch (tr : nat -> M unit) d choice f :
  (forall d', pres (tr d')) -> pres (dispatch tr d choice f).
Proof.
  intros Htr. unfold dispatch, delete_file, delete_file_directory, skip,
    skip_directory, print_help, emit.
  repeat (pres_step || apply pres_advance); auto.
Qed.

Lemma pres_transition : forall n d, pres (transition n d).
Proof.
  induction n as [|n IH]; intros d; simpl.
  - intros s; apply R_refl.
  - repeat (pres_step || apply pres_current_file || apply pres_prompt
            || apply pres_advance || apply pres_dispatch); auto.
Qed.

Lemma pres_resume : forall n d, pres (resume n d).
Proof.
  intros n d. unfold resume, read_input, emit.
  repeat (pres_step || apply pres_current_file || apply pres_dispatch);
    auto using pres_transition.
Qed.

End Preserve.

Lemma pres_out_ext : forall n d, pres out_ext (resume n d).
Proof.
  apply pres_resume; unfold out_ext, pres; cbn.
  - intros s; exists []; rewrite app_nil_r; reflexivity.
  - intros s1 s2 s3 [l1 H1] [l2 H2]. exists (l1 ++ l2). rewrite H2, H1, app_assoc.
    reflexivity.
  - intros d s; exists []; cbn; rewrite app_nil_r; reflexivity.
  - intros s _; exists []; rewrite app_nil_r; reflexivity.
  - intros s _; exists []; rewrite app_nil_r; reflexivity.
  - intros s _; exists []; rewrite app_nil_r; reflexivity.
  - intros s _; exists []; rewrite app_nil_r; reflexivity.
  - intros s e; exists [e]; reflexivity.
Qed.

Lemma pres_depth_le : forall n d, pres depth_le (resume n d).
Proof.
  apply pres_resume; unfold depth_le, pres; cbn; intros; try lia.
Qed.

(** ** Running the session step by step *)

Lemma bind_ok {A B} (m : M A) (k : A -> M B) s a s' :
  m s = Ok a s' -> bind m k s = k a s'.
Proof. intros H; unfold bind; rewrite H; reflexivity. Qed.

Lemma bind_assoc_at {A B C} (m : M A) (k1 : A -> M B) (k2 : B -> M C) s :
  bind (bind m k1) k2 s = bind m (fun a => bind (k1 a) k2) s.
Proof. unfold bind; destruct (m s); reflexivity. Qed.

Lemma current_file_ok s f :
  nth_error (files s) (cur s) = Some f -> current_file s = Ok f s.
Proof. intros H; unfold current_file, bind, get; rewrite H; reflexivity. Qed.

Lemma advance_last tr d s :
  List.length (files s) = S (cur s) ->
  advance tr d s = Ok tt (set_maxdepth (Nat.max (maxdepth s) d) s).
Proof.
  intros H. unfold advance, bind, enter, modify, get. cbn.
  rewrite H, Nat.leb_refl. reflexivity.
Qed.

Lemma print_as_tree_ok f s :
  os_path_isdir (fs s) (directory f) = true ->
  print_as_tree f s = Ok tt (set_out (out s ++ [ERender (f_path f)]) s).
Proof.
  intros H. unfold print_as_tree, bind, emit, modify, get. cbn.
  rewrite H. reflexivity.
Qed.

Lemma read_input_ok s t r :
  inputs s = t :: r ->
  read_input s = Ok t (set_out (out s ++ [EInput t]) (set_inputs r s)).
Proof. intros H. unfold read_input, bind, get. rewrite H. reflexivity. Qed.

Ltac go := erewrite bind_ok; [cbv beta|
  solve [reflexivity | apply current_file_ok; cbn; eassumption
        | apply advance_last; cbn; assumption
        | apply print_as_tree_ok; cbn; assumption]].

Ltac finish_prompt :=
  unfold prompt; rewrite bind_assoc_at; go; rewrite bind_assoc_at; go;
  eexists; split; [reflexivity|cbn; repeat split; lia].

(** A record that is still present and not ignored, or the last record of the
    ranking, is rendered by [transition]; the token read next decides. *)
Lemma transition_renders_current : forall n d st f,
  nth_error (files st) (cur st) = Some f ->
  (os_path_exists (fs st) (f_path f) = true /\
   existsb (path_eqb (directory f)) (directories_to_ignore st) = false
   \/ List.length (files st) = S (cur st)) ->
  os_path_isdir (fs st) (directory f) = true ->
  exists st1,
    transition (S n) d st = resume n d st1 /\
    fs st1 = fs st /\ directories_to_ignore st1 = directories_to_ignore st /\
    files st1 = files st /\ cur st1 = cur st /\ inputs st1 = inputs st /\
    out st1 = out st ++ [ERender (f_path f)] /\
    maxdepth st <= maxdepth st1 /\ d <= maxdepth st1.
Proof.
  intros n d st f Hnth Hst Hdir.
  cbn [transition].
  go. go. go. cbn [fs set_maxdepth directories_to_ignore].
  destruct Hst as [[Hex Hig]|Hlast].
  - rewrite Hex. cbn [negb]. go. go. go. cbn [set_maxdepth directories_to_ignore].
    rewrite Hig. go. finish_prompt.
  - destruct (negb (os_path_exists (fs st) (f_path f))); go; go; go;
    cbn [set_maxdepth directories_to_ignore];
    (destruct (existsb (path_eqb (directory f)) (directories_to_ignore st)); go);
    finish_prompt.
Qed.

Lemma at_prompt_same st st' f :
  at_prompt st f -> fs st' = fs st ->
  directories_to_ignore st' = directories_to_ignore st ->
  files st' = files st -> cur st' = cur st -> at_prompt st' f.
Proof.
  unfold at_prompt. intros H Hfs Hig Hfl Hc. rewrite Hfs, Hig, Hfl, Hc. exact H.
Qed.

Lemma not_action_token t c :
  ~ In t action_tokens -> In c action_tokens -> String.eqb t c = false.
Proof.
  intros Hn Hc. apply String.eqb_neq. intros ->. contradiction.
Qed.

(** One help or invalid token on a prompted record: [transition] calls itself
    again one frame deeper, with the same filesystem, ignored directories and
    current record; only the input and the output have moved on. *)
Lemma reprompt_step : forall n d st f t rest,
  at_prompt st f ->
  inputs st = t :: rest ->
  ~ In t action_tokens ->
  exists st' d',
    transition (S (S n)) d st = transition (S n) d' st' /\
    fs st' = fs st /\ directories_to_ignore st' = directories_to_ignore st /\
    files st' = files st /\ cur st' = cur st /\ inputs st' = rest /\
    out st' = out st ++ [ERender (f_path f); EInput t] ++
              (if String.eqb t "?" then [EHelp] else []) /\
    S d <= d' /\ maxdepth st <= maxdepth st' /\ d <= maxdepth st'.
Proof.
  intros n d st f t rest [Hnth [Hst Hdir]] Hin Hnot.
  destruct (transition_renders_current (S n) d st f Hnth Hst Hdir)
    as [st1 (Heq & Hfs & Hig & Hfl & Hc & Hin1 & Hout & Hm1 & Hd1)].
  rewrite Heq. unfold resume.
  erewrite bind_ok by (apply read_input_ok; rewrite Hin1; exact Hin). cbv beta.
  erewrite bind_ok by (apply current_file_ok; cbn; rewrite Hfl, Hc; exact Hnth).
  cbv beta. unfold dispatch.
  rewrite !(not_action_token t) by (exact Hnot || cbn; tauto).
  destruct (String.eqb t "?") eqn:Hq.
  - unfold print_help. erewrite bind_ok by reflexivity. cbv beta.
    eexists; exists (S (S d)); split; [reflexivity|].
    cbn; rewrite Hout, <- !app_assoc; repeat split; auto; lia.
  - eexists; exists (S d); split; [reflexivity|].
    cbn; rewrite Hout, <- !app_assoc; cbn; repeat split; auto; lia.
Qed.

(** C6: a token outside [d], [D], [s], [S] ([?] or anything else) read for a
    prompted record leaves the filesystem, the ignored directories and the
    cursor as they were, and the next thing the session shows is the tree of
    the same record again. *)
Theorem other_token_reprompts_same_record : forall n d st f t rest,
  at_prompt st f ->
  inputs st = t :: rest ->
  ~ In t action_tokens ->
  exists st' d',
    transition (S (S n)) d st = transition (S n) d' st' /\
    fs st' = fs st /\ directories_to_ignore st' = directories_to_ignore st /\
    files st' = files st /\ cur st' = cur st /\ inputs st' = rest /\
    out st' = out st ++ [ERender (f_path f); EInput t] ++
              (if String.eqb t "?" then [EHelp] else []) /\
    exists more,
      out (res_state (transition (S n) d' st')) =
      out st' ++ ERender (f_path f) :: more.
Proof.
  intros n d st f t rest Hp Hin Hnot.
  destruct (reprompt_step n d st f t rest Hp Hin Hnot)
    as (st' & d' & Heq & Hfs & Hig & Hfl & Hc & Hin' & Hout & _).
  exists st', d'. repeat split; auto.
  destruct (at_prompt_same st st' f Hp Hfs Hig Hfl Hc) as [Hnth [Hst Hdir]].
  destruct (transition_renders_current n d' st' f Hnth Hst Hdir)
    as [st1 (Heq1 & _ & _ & _ & _ & _ & Hout1 & _)].
  rewrite Heq1. destruct (pres_out_ext n d' st1) as [l Hl].
  exists l. rewrite Hl, Hout1, <- app_assoc. reflexivity.
Qed.

(** C7: the re-prompting is recursion, not a loop: after [k] help or invalid
    tokens on a record, the session has reached a frame depth of at least
    [k] more than the one of the first prompt. *)
Theorem reprompts_nest_frames : forall ts rest n d st f,
  at_prompt st f ->
  inputs st = ts ++ rest ->
  Forall (fun t => ~ In t action_tokens) ts ->
  d + List.length ts <=
    maxdepth (res_state (transition (S (List.length ts + n)) d st)).
Proof.
  induction ts as [|t ts IH]; intros rest n d st f Hp Hin Hall;
    cbn [List.length Nat.add app] in *.
  - destruct Hp as [Hnth [Hst Hdir]].
    destruct (transition_renders_current n d st f Hnth Hst Hdir)
      as [st1 (Heq & _ & _ & _ & _ & _ & _ & _ & Hd1)].
    rewrite Heq. pose proof (pres_depth_le n d st1) as H.
    unfold depth_le in H. lia.
  - inversion Hall as [|? ? Ht Hts]; subst.
    destruct (reprompt_step (List.length ts + n) d st f t (ts ++ rest) Hp Hin Ht)
      as (st' & d' & Heq & Hfs & Hig & Hfl & Hc & Hin' & _ & Hd' & _).
    rewrite Heq.
    specialize (IH rest n d' st' f (at_prompt_same st st' f Hp Hfs Hig Hfl Hc)
                  Hin' Hts).
    lia.
Qed.

(** ** The ignored directories *)

(** C9 (amended): within a session [StateMachine.directories_to_ignore] only
    grows, by appending; constructing a [StateMachine] does not reset it (it
    is a class attribute, shared by every session of the process). *)
Theorem ignored_append_only_not_reset : forall fl n d st,
  (exists extra, directories_to_ignore (res_state (transition n d st)) =
                 directories_to_ignore st ++ extra) /\
  directories_to_ignore (res_state (StateMachine_init fl st)) =
  directories_to_ignore st.
Proof.
  intros fl n d st. split.
  - apply (pres_transition ignored_ext); unfold ignored_ext, pres; cbn.
    + intros s; exists []; rewrite app_nil_r; reflexivity.
    + intros s1 s2 s3 [l1 H1] [l2 H2]. exists (l1 ++ l2).
      rewrite H2, H1, app_assoc; reflexivity.
    + intros d' s; exists []; cbn; rewrite app_nil_r; reflexivity.
    + intros s _; exists []; rewrite app_nil_r; reflexivity.
    + intros s _; exists []; rewrite app_nil_r; reflexivity.
    + intros s x; exists [x]; reflexivity.
    + intros s _; exists []; rewrite app_nil_r; reflexivity.
    + intros s _; exists []; rewrite app_nil_r; reflexivity.
  - destruct fl; reflexivity.
Qed.

(** C9 counterexample: after a session over [/x/a] in which [S] is pressed,
    a second [StateMachine] starts with [/x] already ignored. *)
Lemma second_session_inherits_ignored :
  exists st,
    (StateMachine_init [ex_a];;; transition 10 0;;; StateMachine_init [ex_b])
      (ex_state ["S"]) = Ok tt st /\
    directories_to_ignore st = [["x"]].
Proof. vm_compute. eexists; split; reflexivity. Qed.

(** ** Stale records (C1) *)

(** C1: the ranking [/x/a], [/x/b]; [S] on [/x/a] ignores [/x], and yet the
    tree of [/x/b] is rendered and a token is read for it: after the
    [self.advance()] of the ignored-directory branch returns (there is no
    next record), [transition] goes on to [self.prompt()]. *)
Theorem ignored_record_is_prompted :
  exists st,
    (StateMachine_init [ex_a; ex_b];;; transition 10 0) (ex_state ["S"; "s"]) =
      Ok tt st /\
    directories_to_ignore st = [["x"]] /\
    out st = [ERender ["x"; "a"]; EInput "S"; ERender ["x"; "b"]; EInput "s"].
Proof. vm_compute. eexists; repeat split; reflexivity. Qed.

(** ** Session construction (C4) *)

(** C4 (amended): [StateMachine([])] raises [IndexError] at [files[0]]; over
    a non-empty ranking the session starts on the record at index 0. *)
Theorem init_empty_or_first : forall st,
  (exists st', StateMachine_init [] st = Err "IndexError" st') /\
  (forall f fl, StateMachine_init (f :: fl) st = Ok tt (set_cur 0 (set_files (f :: fl) st)) /\
                nth_error (f :: fl) 0 = Some f).
Proof.
  intros st. split.
  - eexists; reflexivity.
  - intros f fl; split; reflexivity.
Qed.

(** C4 counterexample: the empty ranking does not raise [EmptyCatalogError]. *)
Lemma init_empty_not_empty_catalog_error :
  ~ exists st', StateMachine_init [] (ex_state []) = Err "EmptyCatalogError" st'.
Proof. intros [st' H]. vm_compute in H. discriminate H. Qed.

(** ** Deletion failures (C3) *)

(** C3 (amended): when [os.remove] ([d]) or [shutil.rmtree] ([D]) raises on
    a prompted record, nothing catches it: [transition] ends with that
    exception, and so does every computation that called it. *)
Theorem failed_deletion_propagates : forall n d st f t rest e,
  at_prompt st f ->
  inputs st = t :: rest ->
  (t = "d" /\ os_remove (fs st) (f_path f) = inl e \/
   t = "D" /\ shutil_rmtree (fs st) (directory f) = inl e) ->
  exists st',
    transition (S n) d st = Err e st' /\
    out st' = out st ++ [ERender (f_path f); EInput t] /\
    forall B (k : unit -> M B), bind (transition (S n) d) k st = Err e st'.
Proof.
  intros n d st f t rest e [Hnth [Hst Hdir]] Hin Hdel.
  destruct (transition_renders_current n d st f Hnth Hst Hdir)
    as [st1 (Heq & Hfs & _ & Hfl & Hc & Hin1 & Hout & _)].
  assert (Hr : transition (S n) d st =
               Err e (set_out (out st1 ++ [EInput t]) (set_inputs rest st1))).
  { rewrite Heq. unfold resume.
    erewrite bind_ok by (apply read_input_ok; rewrite Hin1; exact Hin). cbv beta.
    erewrite bind_ok by (apply current_file_ok; cbn; rewrite Hfl, Hc; exact Hnth).
    cbv beta. unfold dispatch.
    destruct Hdel as [[-> Hrm]|[-> Hrm]]; cbn;
      unfold bind, get; cbn; rewrite Hfs, Hrm; reflexivity. }
  eexists; split; [exact Hr|split].
  - cbn. rewrite Hout, <- app_assoc. reflexivity.
  - intros B k. unfold bind at 1. rewrite Hr. reflexivity.
Qed.

(** ** The scan (C5, C8, C10) *)

Lemma lookup_in : forall es p k, In (p, k) es -> lookup es p <> None.
Proof.
  induction es as [|[q k'] es IH]; cbn; intros p k H; [contradiction|].
  destruct (path_eqb p q) eqn:E; [discriminate|].
  destruct H as [H|H]; [|eapply IH; eauto].
  injection H as -> ->. rewrite (proj2 (path_eqb_eq p p) eq_refl) in E.
  discriminate.
Qed.

Lemma lookup_some_in : forall es p k, lookup es p = Some k -> In (p, k) es.
Proof.
  induction es as [|[q k'] es IH]; cbn; intros p k H; [discriminate|].
  destruct (path_eqb p q) eqn:E.
  - apply path_eqb_eq in E; subst. injection H as ->. left; reflexivity.
  - right; auto.
Qed.

Lemma lookup_nodup : forall es p k,
  NoDup (map fst es) -> In (p, k) es -> lookup es p = Some k.
Proof.
  induction es as [|[q k'] es IH]; cbn; intros p k Hnd H; [contradiction|].
  inversion Hnd as [|? ? Hq Hnd']; subst.
  destruct H as [H|H].
  - injection H as -> ->. rewrite (proj2 (path_eqb_eq p p) eq_refl). reflexivity.
  - destruct (path_eqb p q) eqn:E; [|auto].
    apply path_eqb_eq in E; subst.
    exfalso; apply Hq. apply (in_map fst) in H; exact H.
Qed.

(** The loop of [main] appends the records of its paths to [File.files]. *)
Lemma scan_loop_ok : forall ps st,
  (forall p, In p ps -> lookup (entries (fs st)) p <> None) ->
  scan_loop ps st =
  Ok tt (set_all_files (all_files st ++ flat_map (record_of (fs st)) ps) st).
Proof.
  induction ps as [|p ps IH]; intros st Hps; cbn.
  - unfold ret. rewrite app_nil_r. destruct st; reflexivity.
  - unfold bind at 1, get. unfold record_of at 1.
    assert (Hp : lookup (entries (fs st)) p <> None) by (apply Hps; left; auto).
    destruct (os_path_isdir (fs st) p) eqn:Hd.
    + unfold bind, ret. rewrite IH by (intros q Hq; apply Hps; right; auto).
      reflexivity.
    + destruct (lookup (entries (fs st)) p) as [[size age|]|] eqn:Hl;
        [|unfold os_path_isdir in Hd; rewrite Hl in Hd; discriminate|contradiction].
      unfold bind, File_new, modify.
      rewrite IH by (intros q Hq; apply Hps; right; auto). cbn.
      rewrite <- app_assoc. reflexivity.
Qed.

Lemma entry_length_le : forall fs p k,
  In (p, k) (entries fs) ->
  List.length p <= list_max (map (fun e => List.length (fst e)) (entries fs)).
Proof.
  intros fs p k H.
  assert (HF := proj1 (list_max_le (map (fun e => List.length (fst e)) (entries fs)) _)
                      (Nat.le_refl _)).
  rewrite Forall_forall in HF. apply HF.
  change (List.length p) with ((fun e : path * kind => List.length (fst e)) (p, k)).
  apply in_map. exact H.
Qed.

Lemma path_prefix_app : forall a t, path_prefix a (a ++ t) = true.
Proof. induction a as [|x a IH]; intros t; cbn; [reflexivity|]. rewrite String.eqb_refl. apply IH. Qed.

Lemma path_prefix_ex : forall d q, path_prefix d q = true -> exists t, q = d ++ t.
Proof.
  induction d as [|a d IH]; intros q H; [exists q; reflexivity|].
  destruct q as [|b q]; cbn in H; [discriminate|].
  apply andb_true_iff in H as [E H]. apply String.eqb_eq in E; subst b.
  destruct (IH q H) as [t ->]. exists t; reflexivity.
Qed.

Lemma is_child_snoc : forall d q, is_child d q = true -> q = d ++ [path_name q].
Proof.
  intros d q H. unfold is_child in H. apply andb_true_iff in H as [H L].
  apply Nat.eqb_eq in L. destruct (path_prefix_ex _ _ H) as [t ->].
  rewrite length_app in L. destruct t as [|x [|y t]]; cbn in L; try lia.
  unfold path_name. rewrite last_last. reflexivity.
Qed.

Lemma is_child_app : forall d x, is_child d (d ++ [x]) = true.
Proof.
  intros d x. unfold is_child. rewrite path_prefix_app, length_app. cbn.
  rewrite Nat.add_comm. apply Nat.eqb_refl.
Qed.

Lemma nodup_fst_filter {A B} (g : A * B -> bool) : forall l,
  NoDup (map fst l) -> NoDup (map fst (filter g l)).
Proof.
  induction l as [|x l IH]; cbn; intros Hnd; [constructor|].
  inversion Hnd as [|? ? Hx Hnd']; subst.
  destruct (g x); cbn; [|auto].
  constructor; [|auto].
  intros Hin. apply Hx. apply in_map_iff in Hin as [y [Hy Hin]].
  apply filter_In in Hin as [Hin _]. rewrite <- Hy. apply in_map; exact Hin.
Qed.

Lemma nodup_map_inj {A B} (f : A -> B) : forall l,
  (forall x y, f x = f y -> x = y) -> NoDup l -> NoDup (map f l).
Proof.
  intros l Hf Hnd. induction Hnd as [|x l Hx Hnd IH]; cbn; constructor; [|exact IH].
  intros Hin. apply in_map_iff in Hin as [y [E Hy]].
  apply Hf in E; subst. contradiction.
Qed.

Lemma nodup_flat_map {A B} (g : A -> list B) : forall l,
  NoDup l -> (forall x, In x l -> NoDup (g x)) ->
  (forall x y z, In x l -> In y l -> In z (g x) -> In z (g y) -> x = y) ->
  NoDup (flat_map g l).
Proof.
  induction l as [|x l IH]; cbn; intros Hnd Hg Hdis; [constructor|].
  inversion Hnd as [|? ? Hx Hnd']; subst.
  apply NoDup_app.
  - apply Hg; left; reflexivity.
  - apply IH; [exact Hnd'|intros y Hy; apply Hg; right; exact Hy|].
    intros y y' z Hy Hy' H1 H2. apply (Hdis y y' z); auto.
  - intros z Hz Hz'. apply in_flat_map in Hz' as [y [Hy Hzy]].
    assert (x = y) by (apply (Hdis x y z); auto). subst. contradiction.
Qed.

(** What [_listdir] returns: the names of the entries one level below a
    directory [d] (directories only when [dironly]). *)
Lemma listdir_in : forall fs d dironly x,
  In x (listdir fs d dironly) <->
  os_path_isdir fs d = true /\
  exists k, In (d ++ [x], k) (entries fs) /\
            (dironly = false \/ os_path_isdir fs (d ++ [x]) = true).
Proof.
  intros fs d dironly x. unfold listdir.
  destruct (os_path_isdir fs d) eqn:Hd;
    [|split; [intros []|intros [H _]; discriminate]].
  rewrite in_map_iff. split.
  - intros [[q k] [Hx Hq]]. apply filter_In in Hq as [Hq Hc]. cbn in Hx, Hc.
    apply andb_true_iff in Hc as [Hc Hdir].
    pose proof (is_child_snoc _ _ Hc) as E. unfold path_name in E. rewrite Hx in E. subst q.
    split; [reflexivity|]. exists k. split; [exact Hq|].
    destruct dironly; cbn in Hdir; [right; exact Hdir|left; reflexivity].
  - intros [_ [k [Hin Hdo]]]. exists (d ++ [x], k). split.
    + cbn. unfold path_name. apply last_last.
    + apply filter_In. split; [exact Hin|]. cbn. rewrite is_child_app. cbn.
      destruct dironly; cbn; [destruct Hdo as [H|H]; [discriminate|exact H]|reflexivity].
Qed.

Lemma nodup_names : forall d (l : list (path * kind)),
  NoDup (map fst l) -> (forall e, In e l -> is_child d (fst e) = true) ->
  NoDup (map (fun e => path_name (fst e)) l).
Proof.
  intros d l Hnd Hc. induction l as [|e l IH]; cbn; [constructor|].
  inversion Hnd as [|? ? He Hnd']; subst. constructor.
  - intros Hin. apply in_map_iff in Hin as [e' [Hn He']]. apply He.
    rewrite (is_child_snoc d (fst e)) by (apply Hc; left; reflexivity).
    rewrite <- Hn, <- (is_child_snoc d (fst e')) by (apply Hc; right; exact He').
    apply in_map; exact He'.
  - apply IH; [exact Hnd'|intros e' He'; apply Hc; right; exact He'].
Qed.

Lemma listdir_nodup : forall fs d dironly,
  NoDup (map fst (entries fs)) -> NoDup (listdir fs d dironly).
Proof.
  intros fs d dironly Hnd. unfold listdir. destruct (os_path_isdir fs d); [|constructor].
  apply (nodup_names d); [apply nodup_fst_filter; exact Hnd|].
  intros e He. apply filter_In in He as [_ He]. apply andb_true_iff in He as [He _]. exact He.
Qed.

Lemma rlistdir_exists : forall fuel fs d dironly rel,
  In rel (rlistdir fuel fs d dironly) -> lookup (entries fs) (d ++ rel) <> None.
Proof.
  induction fuel as [|fuel IH]; intros fs d dironly rel H; cbn in H; [contradiction|].
  apply in_flat_map in H as [x [Hx H]]. destruct (hidden_name x); [contradiction|].
  destruct H as [<-|H].
  - apply listdir_in in Hx as [_ [k [Hk _]]]. eapply lookup_in; eauto.
  - apply in_map_iff in H as [r [<- Hr]]. apply IH in Hr.
    rewrite <- app_assoc in Hr. exact Hr.
Qed.

Lemma rlistdir_nonempty : forall fuel fs d dironly rel,
  In rel (rlistdir fuel fs d dironly) -> rel <> [].
Proof.
  intros [|fuel] fs d dironly rel H; cbn in H; [contradiction|].
  apply in_flat_map in H as [x [_ H]]. destruct (hidden_name x); [contradiction|].
  destruct H as [<-|H]; [discriminate|].
  apply in_map_iff in H as [r [<- _]]; discriminate.
Qed.

Lemma rlistdir_not_dir : forall fuel fs d dironly,
  os_path_isdir fs d = false -> rlistdir fuel fs d dironly = [].
Proof. intros [|fuel] fs d dironly H; cbn; [reflexivity|]. unfold listdir; rewrite H; reflexivity. Qed.

(** [_rlistdir(d, dironly=True)] yields non-empty relative paths of
    directories, with no hidden component. *)
Lemma rlistdir_sound : forall fuel fs d rel,
  In rel (rlistdir fuel fs d true) ->
  forallb (fun s => negb (hidden_name s)) rel = true /\ os_path_isdir fs (d ++ rel) = true.
Proof.
  induction fuel as [|fuel IH]; intros fs d rel H; cbn in H; [contradiction|].
  apply in_flat_map in H as [x [Hx H]]. destruct (hidden_name x) eqn:Hh; [contradiction|].
  apply listdir_in in Hx as [_ [k [_ [Hdo|Hdo]]]]; [discriminate|].
  destruct H as [<-|H].
  - cbn. rewrite Hh. split; [reflexivity|exact Hdo].
  - apply in_map_iff in H as [r [<- Hr]]. apply IH in Hr as [Hv Hd].
    cbn. rewrite Hh, Hv. rewrite <- app_assoc in Hd. split; [reflexivity|exact Hd].
Qed.

(** ... and every such path whose prefixes are directories, given enough
    fuel. *)
Lemma rlistdir_complete : forall fs fuel rel d,
  List.length rel <= fuel -> rel <> [] ->
  forallb (fun s => negb (hidden_name s)) rel = true ->
  os_path_isdir fs d = true ->
  (forall pre suf, rel = pre ++ suf -> pre <> [] -> os_path_isdir fs (d ++ pre) = true) ->
  In rel (rlistdir fuel fs d true).
Proof.
  intros fs fuel rel. revert fuel.
  induction rel as [|x rel IH]; intros fuel d Hlen Hne Hvis Hd Hpre; [congruence|].
  destruct fuel as [|fuel]; cbn in Hlen; [lia|].
  cbn [rlistdir]. apply in_flat_map. exists x.
  cbn in Hvis. apply andb_true_iff in Hvis as [Hx Hvis]. apply negb_true_iff in Hx.
  assert (Hdx : os_path_isdir fs (d ++ [x]) = true)
    by (apply (Hpre [x] rel); [reflexivity|discriminate]).
  split.
  - apply listdir_in. split; [exact Hd|].
    unfold os_path_isdir in Hdx.
    destruct (lookup (entries fs) (d ++ [x])) as [[]|] eqn:L; try discriminate.
    exists KDir. split; [apply lookup_some_in; exact L|].
    right; unfold os_path_isdir; rewrite L; reflexivity.
  - rewrite Hx. destruct rel as [|y rel']; [left; reflexivity|]. right. apply in_map.
    apply IH; [lia|discriminate|exact Hvis|exact Hdx|].
    intros pre suf E Hp. rewrite <- app_assoc.
    apply (Hpre (x :: pre) suf); [rewrite E; reflexivity|discriminate].
Qed.

Lemma rlistdir_nodup : forall fuel fs d dironly,
  NoDup (map fst (entries fs)) -> NoDup (rlistdir fuel fs d dironly).
Proof.
  induction fuel as [|fuel IH]; intros fs d dironly Hnd; cbn; [constructor|].
  apply nodup_flat_map; [apply listdir_nodup; exact Hnd| |].
  - intros x _. destruct (hidden_name x); [constructor|]. constructor.
    + intros H. apply in_map_iff in H as [r [E Hr]]. injection E as E. subst r.
      exact (rlistdir_nonempty _ _ _ _ _ Hr eq_refl).
    + apply nodup_map_inj; [intros a b E; injection E; auto|apply IH; exact Hnd].
  - intros x y z _ _ Hx Hy.
    assert (Hh : forall w, In z (if hidden_name w then []
                                 else [w] :: map (cons w) (rlistdir fuel fs (d ++ [w]) dironly)) ->
                           hd "" z = w).
    { intros w Hw. destruct (hidden_name w); [contradiction|].
      destruct Hw as [<-|Hw]; [reflexivity|]. apply in_map_iff in Hw as [r [<- _]]; reflexivity. }
    rewrite <- (Hh x Hx), <- (Hh y Hy). reflexivity.
Qed.

(** Every path [_iglob] yields exists: it was listed in its directory, or
    checked with [os.path.lexists] / [os.path.isdir]. *)
Lemma iglob_exists : forall fuel fs rpat dironly p,
  In p (iglob fuel fs rpat dironly) -> lookup (entries fs) p <> None.
Proof.
  intros fuel fs [|b rdir] dironly p H; cbn [iglob] in H.
  - destruct (os_path_isdir fs []) eqn:D; [|contradiction]. destruct H as [<-|[]].
    unfold os_path_isdir in D. destruct (lookup (entries fs) []); congruence.
  - destruct (negb (existsb has_magic (b :: rdir))).
    + destruct (String.eqb b "").
      * destruct (os_path_isdir fs (rev rdir)) eqn:D; [|contradiction].
        destruct H as [<-|[]]. unfold os_path_isdir in D.
        destruct (lookup (entries fs) (rev rdir)); congruence.
      * destruct (os_path_exists fs (rev (b :: rdir))) eqn:E; [|contradiction].
        destruct H as [<-|[]]. unfold os_path_exists in E.
        destruct (lookup (entries fs) (rev (b :: rdir))); congruence.
    + apply in_flat_map in H as [d [_ H]]. apply in_map_iff in H as [rel [<- H]].
      destruct (has_magic b); [destruct (String.eqb b "**")|].
      * unfold glob2 in H. apply in_app_or in H as [H|H].
        -- destruct (os_path_isdir fs d) eqn:D; [|contradiction]. destruct H as [<-|[]].
           rewrite app_nil_r. unfold os_path_isdir in D.
           destruct (lookup (entries fs) d); congruence.
        -- eapply rlistdir_exists; eauto.
      * unfold glob1 in H. apply in_map_iff in H as [x [<- H]]. apply filter_In in H as [H _].
        assert (Hx : In x (listdir fs d dironly))
          by (destruct (hidden_name b); [exact H|apply filter_In in H as [H _]; exact H]).
        apply listdir_in in Hx as [_ [k [Hk _]]]. eapply lookup_in; eauto.
      * unfold glob0 in H. destruct (String.eqb b "").
        -- destruct (os_path_isdir fs d) eqn:D; [|contradiction]. destruct H as [<-|[]].
           rewrite app_nil_r. unfold os_path_isdir in D.
           destruct (lookup (entries fs) d); congruence.
        -- destruct (os_path_exists fs (d ++ [b])) eqn:E; [|contradiction].
           destruct H as [<-|[]]. unfold os_path_exists in E.
           destruct (lookup (entries fs) (d ++ [b])); congruence.
Qed.

(** The scan never raises: every globbed path is in the listing. *)
Lemma scan_ok : forall root st,
  scan root st =
  Ok tt (set_all_files (all_files st ++ flat_map (record_of (fs st)) (glob (fs st) root)) st).
Proof.
  intros root st. unfold scan, bind, get. apply scan_loop_ok.
  intros p Hp. exact (iglob_exists _ _ _ _ _ Hp).
Qed.

Lemma fnmatch_star : forall x, fnmatch x "*" = true.
Proof.
  intros x. unfold fnmatch.
  change (translate (S (List.length (code_points "*"))) (code_points "*")) with [PStar].
  induction (code_points x) as [|c s IH]; [reflexivity|].
  cbn. cbn in IH. exact IH.
Qed.

Lemma filter_all_true {A} (g : A -> bool) : forall l,
  (forall x, g x = true) -> filter g l = l.
Proof. induction l as [|x l IH]; cbn; intros H; [reflexivity|]. rewrite H, IH; auto. Qed.

(** [_glob1(d, "*")]: the non-hidden names of [d]. *)
Lemma glob1_star : forall fs d,
  glob1 fs d "*" false =
  map (fun x => [x]) (filter (fun x => negb (hidden_name x)) (listdir fs d false)).
Proof.
  intros fs d. unfold glob1. change (hidden_name "*") with false. cbv iota beta.
  rewrite filter_all_true; [reflexivity|]. apply fnmatch_star.
Qed.

Lemma existsb_rev {A} (g : A -> bool) : forall l, existsb g (rev l) = existsb g l.
Proof.
  induction l as [|x l IH]; cbn; [reflexivity|].
  rewrite existsb_app, IH. cbn. rewrite orb_false_r, orb_comm. reflexivity.
Qed.

Lemma existsb_forallb_negb {A} (g : A -> bool) : forall l,
  forallb (fun x => negb (g x)) l = true -> existsb g l = false.
Proof.
  induction l as [|x l IH]; cbn; intros H; [reflexivity|].
  apply andb_true_iff in H as [H1 H2]. apply negb_true_iff in H1. rewrite H1. auto.
Qed.

(** For a root free of [*], [?] and [[], [glob(root + "/**/*")] is the
    listing, by [_glob1(d, "*")], of each directory [d] that [_glob2(root,
    "**")] yields. *)
Lemma glob_literal : forall fs root,
  forallb (fun c => negb (has_magic c)) root = true ->
  glob fs root =
  flat_map (fun rel => map (fun x => (root ++ rel) ++ [x])
                          (filter (fun x => negb (hidden_name x)) (listdir fs (root ++ rel) false)))
           (glob2 (glob_fuel fs) fs root true).
Proof.
  intros fs root Hr. unfold glob. rewrite rev_app_distr.
  assert (H3 : existsb has_magic (rev root) = false)
    by (rewrite existsb_rev; apply existsb_forallb_negb; exact Hr).
  cbn [rev app iglob]. rewrite H3.
  change (existsb has_magic ("*" :: "**" :: rev root)) with true.
  change (existsb has_magic ("**" :: rev root)) with true.
  change (has_magic "**") with true. change (has_magic "*") with true.
  change (String.eqb "**" "**") with true. change (String.eqb "*" "**") with false.
  cbv iota beta. cbn [negb flat_map]. rewrite app_nil_r, rev_involutive.
  induction (glob2 (glob_fuel fs) fs root true) as [|rel L IH]; cbn [flat_map map]; [reflexivity|].
  rewrite IH, glob1_star, map_map. reflexivity.
Qed.

Lemma glob2_nodup : forall fuel fs d,
  NoDup (map fst (entries fs)) -> NoDup (glob2 fuel fs d true).
Proof.
  intros fuel fs d Hnd. unfold glob2.
  destruct (os_path_isdir fs d); cbn; [|apply rlistdir_nodup; exact Hnd].
  constructor; [|apply rlistdir_nodup; exact Hnd].
  intros H. exact (rlistdir_nonempty _ _ _ _ _ H eq_refl).
Qed.

Lemma visible_below_app : forall root t,
  visible_below root (root ++ t) =
  match t with [] => false | _ => forallb (fun s => negb (hidden_name s)) t end.
Proof.
  induction root as [|a root IH]; intros t; [destruct t; reflexivity|].
  cbn. rewrite String.eqb_refl. apply IH.
Qed.

Lemma visible_below_app_ne : forall root t, t <> [] ->
  visible_below root (root ++ t) = forallb (fun s => negb (hidden_name s)) t.
Proof. intros root t H. rewrite visible_below_app. destruct t; [congruence|reflexivity]. Qed.

Lemma visible_below_spec : forall root p,
  visible_below root p = true ->
  exists t, p = root ++ t /\ t <> [] /\ forallb (fun s => negb (hidden_name s)) t = true.
Proof.
  induction root as [|a root IH]; destruct p as [|b p]; cbn; intros H; try discriminate.
  - exists (b :: p). split; [reflexivity|split; [discriminate|exact H]].
  - apply andb_true_iff in H as [E H]. apply String.eqb_eq in E; subst b.
    destruct (IH p H) as [t [-> Ht]]. exists t; split; [reflexivity|exact Ht].
Qed.

Lemma glob_literal_nodup : forall fs root,
  forallb (fun c => negb (has_magic c)) root = true ->
  NoDup (map fst (entries fs)) -> NoDup (glob fs root).
Proof.
  intros fs root Hr Hnd. rewrite glob_literal by exact Hr.
  apply nodup_flat_map; [apply glob2_nodup; exact Hnd| |].
  - intros rel _. apply nodup_map_inj.
    + intros x y E. apply app_inj_tail in E as [_ E]. exact E.
    + apply NoDup_filter, listdir_nodup; exact Hnd.
  - intros rel rel' z _ _ H1 H2.
    apply in_map_iff in H1 as [x [<- _]]. apply in_map_iff in H2 as [y [E _]].
    apply app_inj_tail in E as [E _]. apply app_inv_head in E. symmetry; exact E.
Qed.

(** For a root free of pattern characters, [glob] yields only paths lying
    below the root with no hidden component. *)
Lemma glob_literal_sound : forall fs root p,
  forallb (fun c => negb (has_magic c)) root = true ->
  In p (glob fs root) -> exists k, In (p, k) (entries fs) /\ visible_below root p = true.
Proof.
  intros fs root p Hr H. rewrite glob_literal in H by exact Hr.
  apply in_flat_map in H as [rel [Hrel Hp]]. apply in_map_iff in Hp as [x [<- Hx]].
  apply filter_In in Hx as [Hx Hvx]. apply listdir_in in Hx as [_ [k [Hk _]]].
  exists k; split; [exact Hk|].
  assert (Hvr : forallb (fun s => negb (hidden_name s)) rel = true).
  { unfold glob2 in Hrel. apply in_app_or in Hrel as [Hrel|Hrel].
    - destruct (os_path_isdir fs root); [|contradiction]. destruct Hrel as [<-|[]]; reflexivity.
    - apply rlistdir_sound in Hrel as [Hv _]; exact Hv. }
  rewrite <- app_assoc, visible_below_app_ne by (destruct rel; discriminate).
  rewrite forallb_app, Hvr. cbn. rewrite Hvx. reflexivity.
Qed.

Section Complete.
Variable fs : FS.
Variable root : path.
(** Each entry visible below [root] sits in a directory. *)
Hypothesis parents_are_dirs : forall p k,
  In (p, k) (entries fs) -> visible_below root p = true ->
  os_path_isdir fs (dirname p) = true.

Lemma dirs_above : forall suf pre,
  os_path_isdir fs (root ++ pre ++ suf) = true ->
  forallb (fun s => negb (hidden_name s)) (pre ++ suf) = true ->
  os_path_isdir fs (root ++ pre) = true.
Proof.
  induction suf as [|y suf IH] using rev_ind; intros pre Hd Hv.
  - rewrite app_nil_r in Hd. exact Hd.
  - unfold os_path_isdir in Hd.
    destruct (lookup (entries fs) (root ++ pre ++ suf ++ [y])) as [[]|] eqn:L; try discriminate.
    apply lookup_some_in in L. apply parents_are_dirs in L.
    + unfold dirname in L. rewrite !app_assoc, removelast_last, <- app_assoc in L.
      apply IH; [exact L|]. rewrite app_assoc, forallb_app in Hv.
      apply andb_true_iff in Hv as [Hv _]. exact Hv.
    + rewrite visible_below_app_ne; [exact Hv|]. destruct pre, suf; discriminate.
Qed.

Lemma glob_literal_complete : forall p k,
  forallb (fun c => negb (has_magic c)) root = true ->
  In (p, k) (entries fs) -> visible_below root p = true -> In p (glob fs root).
Proof.
  intros p k Hr Hin Hv.
  pose proof (parents_are_dirs _ _ Hin Hv) as Hpar.
  destruct (visible_below_spec _ _ Hv) as [t [-> [Ht Hvis]]].
  destruct (exists_last Ht) as [rel [x ->]].
  unfold dirname in Hpar. rewrite app_assoc, removelast_last in Hpar.
  rewrite forallb_app in Hvis. apply andb_true_iff in Hvis as [Hvr Hvx].
  cbn in Hvx. rewrite andb_true_r in Hvx.
  rewrite glob_literal by exact Hr. apply in_flat_map. exists rel. split.
  - unfold glob2. apply in_or_app.
    destruct rel as [|r0 rel'] eqn:Erel.
    + left. rewrite app_nil_r in Hpar. rewrite Hpar. left; reflexivity.
    + right. rewrite <- Erel in *. apply rlistdir_complete.
      * apply entry_length_le in Hin. rewrite !length_app in Hin. unfold glob_fuel. lia.
      * rewrite Erel; discriminate.
      * exact Hvr.
      * rewrite <- (app_nil_r root). apply (dirs_above rel []); [exact Hpar|exact Hvr].
      * intros pre suf E _. rewrite E in Hpar, Hvr.
        apply (dirs_above suf pre); [exact Hpar|exact Hvr].
  - apply in_map_iff. exists x. split; [rewrite <- app_assoc; reflexivity|].
    apply filter_In. split; [|exact Hvx].
    apply listdir_in. split; [exact Hpar|]. exists k.
    rewrite <- app_assoc. split; [exact Hin|left; reflexivity].
Qed.

End Complete.



Lemma record_of_path : forall fs p g, In g (record_of fs p) -> f_path g = p.
Proof.
  intros fs p g. unfold record_of.
  destruct (os_path_isdir fs p); [contradiction|].
  destruct (lookup (entries fs) p) as [[size age|]|]; cbn; try contradiction.
  intros [<-|[]]; reflexivity.
Qed.

Lemma record_of_not_dir : forall fs p g,
  In g (record_of fs p) -> os_path_isdir fs p = false.
Proof.
  intros fs p g. unfold record_of.
  destruct (os_path_isdir fs p); [contradiction|reflexivity].
Qed.

Lemma nodup_records : forall fs ps,
  NoDup ps -> NoDup (map f_path (flat_map (record_of fs) ps)).
Proof.
  intros fs; induction ps as [|p ps IH]; cbn; intros Hnd; [constructor|].
  inversion Hnd as [|? ? Hp Hnd']; subst.
  rewrite map_app. unfold record_of at 1.
  destruct (os_path_isdir fs p); [auto|].
  destruct (lookup (entries fs) p) as [[size age|]|]; cbn; auto.
  constructor; [|auto].
  intros Hin. apply in_map_iff in Hin as [g [Hg Hin]].
  apply in_flat_map in Hin as [q [Hq Hin]].
  apply record_of_path in Hin. subst. contradiction.
Qed.



(** X11: [glob] reads the root as a pattern. With the root [/m/Show [2019]],
    the bracket matches one character of [2019]: the scan builds the record
    of [/m/Show 2/e.mkv], and none for [/m/Show [2019]/f.mkv], the file
    lying literally below the root. *)
Lemma pattern_root_scans_other_directory :
  let st := mkSt (mkFS [(["m"], KDir); (["m"; "Show 2"], KDir);
                        (["m"; "Show 2"; "e.mkv"], KFile 5 1);
                        (["m"; "Show [2019]"], KDir);
                        (["m"; "Show [2019]"; "f.mkv"], KFile 7 2)] [])
                 [] [] [] 0 [] [] 0 in
  scan ["m"; "Show [2019]"] st =
    Ok tt (set_all_files [file_fields ["m"; "Show 2"; "e.mkv"] 5 1] st).
Proof. vm_compute. reflexivity. Qed.

Lemma files_by_size_perm : forall l, Permutation (files_by_size l) l.
Proof. intros l. apply sort_by_perm. Qed.

Lemma files_by_age_perm : forall l, Permutation (files_by_age l) l.
Proof.
  intros l. unfold files_by_age, sorted.
  rewrite <- Permutation_rev, sort_by_perm. symmetry; apply Permutation_rev.
Qed.

(** C10: [File(...)] appends to the class-level [File.files]; two scans in
    one process accumulate there, and both rankings range over all of it, so
    the records of the first scan are ranked again after the second. *)
Theorem file_registry_process_wide : forall r1 r2 st,
  (forall p size age s,
     File_new p size age s =
     Ok tt (set_all_files (all_files s ++ [file_fields p size age]) s)) /\
  exists st',
    (scan r1;;; scan r2) st = Ok tt st' /\
    all_files st' = all_files st ++ flat_map (record_of (fs st)) (glob (fs st) r1)
                                 ++ flat_map (record_of (fs st)) (glob (fs st) r2) /\
    Permutation (files_by_size (all_files st')) (all_files st') /\
    Permutation (files_by_age (all_files st')) (all_files st') /\
    (forall f, In f (flat_map (record_of (fs st)) (glob (fs st) r1)) ->
       In f (files_by_size (all_files st')) /\ In f (files_by_age (all_files st'))).
Proof.
  intros r1 r2 st. split; [reflexivity|].
  eexists; split.
  { erewrite bind_ok by apply scan_ok. cbv beta. apply scan_ok. }
  cbn. rewrite <- app_assoc.
  split; [reflexivity|split; [apply files_by_size_perm|split; [apply files_by_age_perm|]]].
  intros f Hf. split.
  - eapply Permutation_in; [symmetry; apply files_by_size_perm|].
    apply in_or_app; right; apply in_or_app; left; exact Hf.
  - eapply Permutation_in; [symmetry; apply files_by_age_perm|].
    apply in_or_app; right; apply in_or_app; left; exact Hf.
Qed.

(** ** Witnesses *)

Lemma ex_a_at_prompt : forall fs0 ins,
  fs0 = ex_fs \/ fs0 = ex_fs_locked -> at_prompt (ex_session fs0 ins) ex_a.
Proof.
  intros fs0 ins [->| ->]; split; [reflexivity|split; [left; split|]; reflexivity
                                   |reflexivity|split; [left; split|]; reflexivity].
Qed.

Lemma failed_deletion_propagates_witness :
  exists st', transition 1 0 (ex_session ex_fs_locked ["d"]) = Err "PermissionError" st'.
Proof.
  destruct (failed_deletion_propagates 0 0 (ex_session ex_fs_locked ["d"]) ex_a
              "d" [] "PermissionError")
    as (st' & H & _).
  - apply ex_a_at_prompt; right; reflexivity.
  - reflexivity.
  - left; split; reflexivity.
  - exists st'; exact H.
Defined.


Lemma other_token_reprompts_same_record_witness :
  exists st' d',
    transition 3 0 (ex_session ex_fs ["?"; "s"]) = transition 2 d' st' /\
    cur st' = 0 /\
    out st' = [ERender ["x"; "a"]; EInput "?"; EHelp].
Proof.
  destruct (other_token_reprompts_same_record 1 0 (ex_session ex_fs ["?"; "s"])
              ex_a "?" ["s"])
    as (st' & d' & H & _ & _ & _ & Hc & _ & Hout & _).
  - apply ex_a_at_prompt; left; reflexivity.
  - reflexivity.
  - cbn; intuition congruence.
  - exists st', d'. split; [exact H|split; [exact Hc|exact Hout]].
Defined.

Lemma reprompts_nest_frames_witness :
  0 + List.length ["x"; "?"] <=
    maxdepth (res_state (transition (S (List.length ["x"; "?"] + 1)) 0
                           (ex_session ex_fs ["x"; "?"; "s"]))).
Proof.
  apply (reprompts_nest_frames ["x"; "?"] ["s"] 1 0 (ex_session ex_fs ["x"; "?"; "s"]) ex_a).
  - apply ex_a_at_prompt; left; reflexivity.
  - reflexivity.
  - repeat constructor; cbn; intuition congruence.
Defined.


(** ** Further counterexamples *)

(** C3 counterexample: [os.remove] of [/x/a] is refused; the exception ends
    the session on [/x/a]: [/x/b] is never shown and the [s] is never read. *)
Lemma refused_remove_aborts_session :
  exists st',
    transition 10 0 (ex_session ex_fs_locked ["d"; "s"]) = Err "PermissionError" st' /\
    cur st' = 0 /\ inputs st' = ["s"] /\
    out st' = [ERender ["x"; "a"]; EInput "d"].
Proof. vm_compute. eexists; repeat split; reflexivity. Qed.

(** C7 counterexample: ten invalid tokens on [/x/a] reach frame depth 15, a
    hundred reach 105: the depth grows with the number of re-prompts. *)
Lemma reprompt_depth_grows :
  maxdepth (res_state (transition 20 0
             (ex_session ex_fs (repeat "x" 10 ++ ["s"; "s"])))) = 15 /\
  maxdepth (res_state (transition 110 0
             (ex_session ex_fs (repeat "x" 100 ++ ["s"; "s"])))) = 105.
Proof. split; vm_compute; reflexivity. Qed.

(** * Further properties of the session *)

(** ** Where a completed [transition] leaves the cursor *)

Definition cursor_in_range (s : St) : Prop := S (cur s) <= List.length (files s).
Definition cursor_on_last (s : St) : Prop := S (cur s) = List.length (files s).

(** [okpost P m Q]: from a state satisfying [P], if [m] returns normally, its
    result and final state satisfy [Q]. *)
Definition okpost {A} (P : St -> Prop) (m : M A) (Q : A -> St -> Prop) : Prop :=
  forall s, P s -> match m s with Ok a s' => Q a s' | _ => True end.

Lemma okpost_bind {A B} P (m : M A) Q (k : A -> M B) R :
  okpost P m Q -> (forall a, okpost (Q a) (k a) R) -> okpost P (bind m k) R.
Proof.
  intros Hm Hk s Hs. specialize (Hm s Hs). unfold bind.
  destruct (m s) as [a s'|e s'|s']; auto. apply Hk; exact Hm.
Qed.

Lemma okpost_ret {A} P (a : A) : okpost P (ret a) (fun _ => P).
Proof. intros s Hs; exact Hs. Qed.

Lemma okpost_raise {A} P Q e : okpost P (A:=A) (raise e) Q.
Proof. intros s _; exact I. Qed.

Lemma okpost_get P : okpost P get (fun _ => P).
Proof. intros s Hs; exact Hs. Qed.

Lemma okpost_modify P f : (forall s, P s -> P (f s)) -> okpost P (modify f) (fun _ => P).
Proof. intros Hf s Hs; apply Hf, Hs. Qed.

Lemma okpost_weaken {A} P (m : M A) (Q Q' : A -> St -> Prop) :
  okpost P m Q -> (forall a s, Q a s -> Q' a s) -> okpost P m Q'.
Proof.
  intros Hm HQ s Hs. specialize (Hm s Hs). destruct (m s); auto.
Qed.

Ltac post_step :=
  match goal with
  | |- okpost _ (bind _ _) _ => eapply okpost_bind; [|intros]
  | |- okpost _ (ret _) _ => apply okpost_ret
  | |- okpost _ (raise _) _ => apply okpost_raise
  | |- okpost _ get _ => apply okpost_get
  | |- okpost _ (modify _) _ =>
      apply okpost_modify; unfold cursor_in_range; intros ?s ?Hs; exact Hs
  | |- okpost _ (enter _) _ =>
      apply okpost_modify; unfold cursor_in_range; intros ?s ?Hs; exact Hs
  | |- okpost _ (if ?b then _ else _) _ => destruct b
  | |- okpost _ (match ?x with _ => _ end) _ => destruct x
  end.

Lemma okpost_current_file :
  okpost cursor_in_range current_file (fun _ => cursor_in_range).
Proof. unfold current_file. repeat post_step. Qed.

Lemma okpost_prompt : okpost cursor_in_range prompt (fun _ => cursor_in_range).
Proof.
  unfold prompt, print_as_tree, read_input, emit.
  repeat (post_step || apply okpost_current_file).
Qed.

Lemma okpost_advance tr d :
  (forall d', okpost cursor_in_range (tr d') (fun _ => cursor_on_last)) ->
  okpost cursor_in_range (advance tr d) (fun _ => cursor_on_last).
Proof.
  intros Htr s Hs. unfold advance, bind, enter, modify, get. cbn.
  destruct (Nat.leb (List.length (files s)) (S (cur s))) eqn:E.
  - apply Nat.leb_le in E. unfold cursor_in_range, cursor_on_last in *; cbn. lia.
  - apply Nat.leb_gt in E. apply Htr. unfold cursor_in_range; cbn. lia.
Qed.

Lemma okpost_advance_in_range tr d :
  (forall d', okpost cursor_in_range (tr d') (fun _ => cursor_on_last)) ->
  okpost cursor_in_range (advance tr d) (fun _ => cursor_in_range).
Proof.
  intros Htr. eapply okpost_weaken; [apply okpost_advance, Htr|].
  unfold cursor_on_last, cursor_in_range. intros _ s H; lia.
Qed.

Lemma okpost_dispatch tr d choice f :
  (forall d', okpost cursor_in_range (tr d') (fun _ => cursor_on_last)) ->
  okpost cursor_in_range (dispatch tr d choice f) (fun _ => cursor_on_last).
Proof.
  intros Htr. unfold dispatch, delete_file, delete_file_directory, skip,
    skip_directory, print_help, emit.
  repeat (post_step || apply okpost_advance); auto.
Qed.

(** X1: whenever [StateMachine.transition] returns normally from a cursor
    inside the ranking, the cursor is on the last record: every path out of
    [transition] goes through an [advance] that found no next record. *)
Theorem transition_returns_on_last : forall n d s s',
  cursor_in_range s -> transition n d s = Ok tt s' -> cursor_on_last s'.
Proof.
  assert (H : forall n d, okpost cursor_in_range (transition n d) (fun _ => cursor_on_last)).
  { induction n as [|n IH]; intros d; cbn [transition].
    - intros s _; exact I.
    - repeat (post_step || apply okpost_current_file || apply okpost_prompt
              || apply okpost_advance_in_range || apply okpost_dispatch); auto. }
  intros n d s s' Hs Heq. specialize (H n d s Hs). rewrite Heq in H. exact H.
Qed.

(** ** What the session never changes *)

Section Invariant.

Variable P : St -> Prop.

Definition keeps {A} (m : M A) : Prop := forall s, P s -> P (res_state (m s)).

Hypothesis P_maxdepth : forall s x, P s -> P (set_maxdepth x s).
Hypothesis P_cur : forall s x, P s -> P (set_cur x s).
Hypothesis P_ignored : forall s x, P s -> P (set_ignored x s).
Hypothesis P_inputs : forall s x, P s -> P (set_inputs x s).
Hypothesis P_out : forall s x, P s -> P (set_out x s).
Hypothesis P_remove : forall s p fs',
  os_remove (fs s) p = inr fs' -> P s -> P (set_fs fs' s).
Hypothesis P_rmtree : forall s p fs',
  shutil_rmtree (fs s) p = inr fs' -> P s -> P (set_fs fs' s).

Lemma keeps_bind {A B} (m : M A) (k : A -> M B) :
  keeps m -> (forall a, keeps (k a)) -> keeps (bind m k).
Proof.
  intros Hm Hk s Hs. specialize (Hm s Hs). unfold bind.
  destruct (m s) as [a s'|e s'|s']; cbn in *; auto. apply Hk, Hm.
Qed.

Ltac keeps_step :=
  match goal with
  | |- keeps (bind _ _) => apply keeps_bind; [|intros]
  | |- keeps (ret _) => intros ?s ?Hs; exact Hs
  | |- keeps (raise _) => intros ?s ?Hs; exact Hs
  | |- keeps get => intros ?s ?Hs; exact Hs
  | |- keeps (enter _) => intros ?s ?Hs; apply P_maxdepth, Hs
  | |- keeps (emit _) => intros ?s ?Hs; apply P_out, Hs
  | |- keeps (modify (set_cur _)) => intros ?s ?Hs; apply P_cur, Hs
  | |- keeps (modify (set_inputs _)) => intros ?s ?Hs; apply P_inputs, Hs
  | |- keeps (modify _) => intros ?s ?Hs; apply P_ignored, Hs
  | |- keeps (if ?b then _ else _) => destruct b
  | |- keeps (match ?x with _ => _ end) => destruct x
  end.

Lemma keeps_current_file : keeps current_file.
Proof. unfold current_file. repeat keeps_step. Qed.

Lemma keeps_prompt : keeps prompt.
Proof.
  unfold prompt, print_as_tree, read_input.
  repeat (keeps_step || apply keeps_current_file).
Qed.

Lemma keeps_advance tr d : (forall d', keeps (tr d')) -> keeps (advance tr d).
Proof.
  intros Htr s Hs. unfold advance, bind, enter, modify, get; cbn.
  destruct (Nat.leb _ _); cbn; [apply P_maxdepth, Hs|].
  apply Htr, P_cur, P_maxdepth, Hs.
Qed.

Lemma keeps_dispatch tr d choice f :
  (forall d', keeps (tr d')) -> keeps (dispatch tr d choice f).
Proof.
  intros Htr. unfold dispatch, skip, skip_directory, print_help.
  repeat (destruct (String.eqb _ _)); try (repeat keeps_step; apply keeps_advance; auto).
  - intros s Hs. unfold delete_file, bind at 1, get.
    destruct (os_remove (fs s) (f_path f)) as [e|fs'] eqn:E; [exact Hs|].
    unfold bind, modify. apply (keeps_advance tr _ Htr). eapply P_remove; eauto.
  - intros s Hs. unfold delete_file_directory, bind at 1, get.
    destruct (shutil_rmtree (fs s) (directory f)) as [e|fs'] eqn:E; [exact Hs|].
    unfold bind, modify. apply (keeps_advance tr _ Htr). eapply P_rmtree; eauto.
  - repeat keeps_step. auto.
  - auto.
Qed.

Lemma keeps_transition : forall n d, keeps (transition n d).
Proof.
  induction n as [|n IH]; intros d; cbn [transition].
  - intros s Hs; exact Hs.
  - repeat (keeps_step || apply keeps_current_file || apply keeps_prompt
            || apply keeps_advance || apply keeps_dispatch); auto.
Qed.

End Invariant.

Lemma os_remove_shrinks fs0 p fs' :
  os_remove fs0 p = inr fs' ->
  incl (entries fs') (entries fs0) /\ locked fs' = locked fs0 /\
  os_path_exists fs' p = false.
Proof.
  unfold os_remove. destruct (lookup (entries fs0) p) as [[]|]; try discriminate.
  destruct (existsb _ _); intros H; inversion H; subst; cbn.
  split; [intros x Hx; apply filter_In in Hx; tauto|split; [reflexivity|]].
  unfold os_path_exists; cbn.
  destruct (lookup _ p) eqn:Hl; [|reflexivity].
  apply lookup_some_in, filter_In in Hl as [_ Hn]. cbn in Hn.
  rewrite (proj2 (path_eqb_eq p p) eq_refl) in Hn. discriminate.
Qed.

Lemma rmtree_shrinks fs0 d fs' :
  shutil_rmtree fs0 d = inr fs' ->
  incl (entries fs') (entries fs0) /\ locked fs' = locked fs0 /\
  forall q, path_prefix d q = true -> os_path_exists fs' q = false.
Proof.
  unfold shutil_rmtree. destruct (lookup (entries fs0) d) as [[]|]; try discriminate.
  destruct (existsb _ _); intros H; inversion H; subst; cbn.
  split; [intros x Hx; apply filter_In in Hx; tauto|split; [reflexivity|]].
  intros q Hq. unfold os_path_exists; cbn.
  destruct (lookup _ q) eqn:Hl; [|reflexivity].
  apply lookup_some_in, filter_In in Hl as [_ Hn]. cbn in Hn.
  rewrite Hq in Hn. discriminate.
Qed.

(** X2: whatever the tokens, the session never creates a filesystem entry
    (it only removes some), never changes which paths are protected, and
    leaves [File.files] and the session's ranking [self.files] untouched. *)
Theorem session_only_removes : forall n d s,
  let s' := res_state (transition n d s) in
  incl (entries (fs s')) (entries (fs s)) /\ locked (fs s') = locked (fs s) /\
  all_files s' = all_files s /\ files s' = files s.
Proof.
  intros n d s.
  apply (keeps_transition (fun x => incl (entries (fs x)) (entries (fs s)) /\
                                    locked (fs x) = locked (fs s) /\
                                    all_files x = all_files s /\ files x = files s));
    cbn; auto.
  - intros x p fs' Hr (H1 & H2 & H3 & H4).
    destruct (os_remove_shrinks _ _ _ Hr) as (Hi & Hl & _).
    split; [intros y Hy; apply H1, Hi, Hy|]. rewrite Hl; auto.
  - intros x p fs' Hr (H1 & H2 & H3 & H4).
    destruct (rmtree_shrinks _ _ _ Hr) as (Hi & Hl & _).
    split; [intros y Hy; apply H1, Hi, Hy|]. rewrite Hl; auto.
  - split; [intros y Hy; exact Hy|auto].
Qed.

(** What [advance] and the [transition] it calls leave on disk lies within
    what was there. *)
Lemma advance_entries_within : forall E n d s,
  incl (entries (fs s)) E ->
  incl (entries (fs (res_state (advance (transition n) d s)))) E.
Proof.
  intros E n d s Hs.
  assert (Hr : forall x p fs', os_remove (fs x) p = inr fs' ->
                 incl (entries (fs x)) E -> incl (entries (fs (set_fs fs' x))) E).
  { intros x p fs' H Hx y Hy. apply Hx, (proj1 (os_remove_shrinks _ _ _ H)), Hy. }
  assert (Ht : forall x p fs', shutil_rmtree (fs x) p = inr fs' ->
                 incl (entries (fs x)) E -> incl (entries (fs (set_fs fs' x))) E).
  { intros x p fs' H Hx y Hy. apply Hx, (proj1 (rmtree_shrinks _ _ _ H)), Hy. }
  eapply (keeps_advance (fun x => incl (entries (fs x)) E));
    [intros; cbn in *; assumption .. | | exact Hs].
  intros d'. apply keeps_transition; intros; cbn in *; eauto.
Qed.

(** X3: once [delete_file_directory] has removed the record's directory,
    nothing at or below that directory exists at the end of the session: the
    rest of the session never creates anything. *)
Theorem rmtree_directory_stays_gone : forall n d st f rest fs',
  at_prompt st f ->
  inputs st = "D" :: rest ->
  shutil_rmtree (fs st) (directory f) = inr fs' ->
  forall p k, In (p, k) (entries (fs (res_state (transition (S n) d st)))) ->
  path_prefix (directory f) p = false.
Proof.
  intros n d st f rest fs' [Hnth [Hst Hdir]] Hin Hrm p k Hp.
  destruct (transition_renders_current n d st f Hnth Hst Hdir)
    as [st1 (Heq & Hfs & _ & Hfl & Hc & Hin1 & _)].
  assert (E : exists s2 dd, transition (S n) d st = advance (transition n) dd (set_fs fs' s2)).
  { rewrite Heq. unfold resume.
    erewrite bind_ok by (apply read_input_ok; rewrite Hin1; exact Hin). cbv beta.
    erewrite bind_ok by (apply current_file_ok; cbn; rewrite Hfl, Hc; exact Hnth).
    cbv beta. unfold dispatch, delete_file_directory. cbn -[advance transition].
    unfold bind at 1, get. cbn -[advance transition]. rewrite Hfs, Hrm.
    unfold bind, modify. do 2 eexists. reflexivity. }
  destruct E as (s2 & dd & E). rewrite E in Hp.
  apply (advance_entries_within (entries fs') n dd (set_fs fs' s2)) in Hp;
    [|intros y Hy; exact Hy].
  destruct (path_prefix (directory f) p) eqn:Hpre; [|reflexivity].
  destruct (rmtree_shrinks _ _ _ Hrm) as (_ & _ & Hgone).
  specialize (Hgone p Hpre). unfold os_path_exists in Hgone.
  apply lookup_in in Hp. destruct (lookup (entries fs') p); [discriminate|congruence].
Qed.

(** * The tree printed by [print_as_tree] *)

Section TreeProofs.

(** [str.lower()] on code points. *)
Variable lower : list N -> list N.

(** The node [k] parent links above [n]. *)
Fixpoint ancestor_at (k : nat) (n : node) : option node :=
  match k with
  | O => Some n
  | S k' => match n_parent n with Some q => ancestor_at k' q | None => None end
  end.

Lemma ancestor_at_snoc : forall k n m p,
  ancestor_at k n = Some m -> n_parent m = Some p -> ancestor_at (S k) n = Some p.
Proof.
  induction k as [|k IH]; intros n m p H Hp; cbn in *.
  - injection H as ->. rewrite Hp. reflexivity.
  - destruct (n_parent n) as [q|]; [|discriminate]. eapply IH; eauto.
Qed.

Lemma path_prefix_trans : forall a b c,
  path_prefix a b = true -> path_prefix b c = true -> path_prefix a c = true.
Proof.
  induction a as [|x a IH]; intros b c Hab Hbc; [reflexivity|].
  destruct b as [|y b]; [discriminate|]. destruct c as [|z c]; [discriminate|].
  cbn in *. apply andb_prop in Hab as [E1 Hab]. apply andb_prop in Hbc as [E2 Hbc].
  apply String.eqb_eq in E1, E2. subst. rewrite String.eqb_refl. cbn. eauto.
Qed.

Lemma insert_path_in : forall x l y, In y (insert_path lower x l) <-> x = y \/ In y l.
Proof.
  intros x l y. induction l as [|z l IH]; cbn; [tauto|].
  destruct (cp_ltb (tree_key lower z) (tree_key lower x)); cbn; rewrite ?IH; tauto.
Qed.

Lemma sort_paths_in : forall l y, In y (sort_paths lower l) <-> In y l.
Proof.
  induction l as [|x l IH]; intros y; cbn; [tauto|].
  rewrite insert_path_in, IH. tauto.
Qed.

Lemma children_is_child : forall fs r c,
  In c (sort_paths lower (iterdir fs r)) ->
  path_prefix r c = true /\ List.length c = S (List.length r).
Proof.
  intros fs r c H. rewrite sort_paths_in in H. unfold iterdir in H.
  apply in_map_iff in H as [[c' k] [<- H]]. apply filter_In in H as [_ H].
  cbn in H. unfold is_child in H. apply andb_prop in H as [H1 H2].
  apply Nat.eqb_eq in H2. auto.
Qed.

Lemma children_loop_forall : forall (Q : node -> Prop) fs sub leaf total cs count,
  (forall c b, In c cs -> forall n, In n (fst (sub c b)) -> Q n) ->
  (forall c b, In c cs -> Q (leaf c b)) ->
  forall n, In n (fst (children_loop fs sub leaf total cs count)) -> Q n.
Proof.
  intros Q fs sub leaf total cs. induction cs as [|c cs IH]; intros count Hsub Hleaf n Hn;
    cbn in Hn; [contradiction|].
  destruct (if os_path_isdir fs c then sub c (Nat.eqb count total)
            else ([leaf c (Nat.eqb count total)], None)) as [ns err] eqn:E.
  assert (Hns : forall m, In m ns -> Q m).
  { intros m Hm. destruct (os_path_isdir fs c).
    - apply (Hsub c (Nat.eqb count total)); [left; reflexivity|]. rewrite E. exact Hm.
    - injection E as <- _. destruct Hm as [<-|[]]. apply Hleaf. left; reflexivity. }
  destruct err as [e|]; [cbn in Hn; auto|].
  destruct (children_loop fs sub leaf total cs (S count)) as [ns' err'] eqn:E'.
  cbn in Hn. apply in_app_or in Hn as [Hn|Hn]; [auto|].
  apply (IH (S count)) with (n := n).
  - intros c' b Hc'. apply Hsub. right; exact Hc'.
  - intros c' b Hc'. apply Hleaf. right; exact Hc'.
  - rewrite E'. exact Hn.
Qed.

Lemma children_loop_none : forall fs sub leaf total cs count,
  (forall c b, In c cs -> os_path_isdir fs c = true -> snd (sub c b) = None) ->
  snd (children_loop fs sub leaf total cs count) = None.
Proof.
  intros fs sub leaf total cs. induction cs as [|c cs IH]; intros count Hsub;
    [reflexivity|]. cbn.
  destruct (os_path_isdir fs c) eqn:D.
  - destruct (sub c (Nat.eqb count total)) as [ns err] eqn:E.
    assert (err = None) as ->.
    { change err with (snd (ns, err)). rewrite <- E. apply Hsub; [left|]; auto. }
    specialize (IH (S count)). destruct (children_loop fs sub leaf total cs (S count)).
    apply IH. intros c' b Hc'. apply Hsub. right; exact Hc'.
  - specialize (IH (S count)). destruct (children_loop fs sub leaf total cs (S count)).
    apply IH. intros c' b Hc'. apply Hsub. right; exact Hc'.
Qed.

Lemma make_tree_head : forall fuel fs r hl par last,
  exists rest, fst (make_tree lower fuel fs r hl par last) = mk_node r hl par last :: rest.
Proof.
  intros [|fuel] fs r hl par last; cbn;
    destruct (lookup (entries fs) r) as [[]|];
    try match goal with |- context [children_loop ?a ?b ?c ?d ?e ?f] =>
      destruct (children_loop a b c d e f) end;
    eexists; reflexivity.
Qed.

(** Every node after the first lies [S k] parent links below the first, [S k]
    components below [r] and [S k] levels deeper. *)
Lemma make_tree_below : forall fuel fs r hl par last n,
  In n (tl (fst (make_tree lower fuel fs r hl par last))) ->
  exists k, ancestor_at (S k) n = Some (mk_node r hl par last) /\
            path_prefix r (np n) = true /\
            List.length (np n) = S k + List.length r /\
            n_depth n = S k + n_depth (mk_node r hl par last).
Proof.
  induction fuel as [|fuel IH]; intros fs r hl par last n Hn.
  - cbn in Hn. destruct (lookup (entries fs) r) as [[]|]; contradiction.
  - cbn [make_tree] in Hn. set (me := mk_node r hl par last) in *.
    destruct (lookup (entries fs) r) as [[]|]; try contradiction.
    match type of Hn with context [children_loop ?a ?b ?c ?d ?e ?f] =>
      destruct (children_loop a b c d e f) as [ns err] eqn:E end. cbn in Hn.
    change ns with (fst (ns, err)) in Hn. rewrite <- E in Hn.
    assert (Hleaf : forall c b, In c (sort_paths lower (iterdir fs r)) ->
      exists k, ancestor_at (S k) (mk_node c hl (Some me) b) = Some me /\
        path_prefix r (np (mk_node c hl (Some me) b)) = true /\
        List.length (np (mk_node c hl (Some me) b)) = S k + List.length r /\
        n_depth (mk_node c hl (Some me) b) = S k + n_depth me).
    { intros c b Hc. apply children_is_child in Hc as [H1 H2].
      exists 0. cbn. auto. }
    revert n Hn. apply children_loop_forall; [|exact Hleaf].
    intros c b Hc m Hm.
    destruct (make_tree_head fuel fs c hl (Some me) b) as [rest Hrest].
    rewrite Hrest in Hm. destruct Hm as [<-|Hm]; [apply Hleaf; exact Hc|].
    change rest with (tl (mk_node c hl (Some me) b :: rest)) in Hm.
    rewrite <- Hrest in Hm. apply IH in Hm as [k [Ha [Hp [Hl Hd]]]].
    apply children_is_child in Hc as [Hc1 Hc2].
    exists (S k). repeat split.
    + eapply ancestor_at_snoc; [exact Ha|reflexivity].
    + eapply path_prefix_trans; eauto.
    + cbn [np mk_node] in Hl. lia.
    + cbn [n_depth mk_node] in Hd. lia.
Qed.

Lemma ancestor_parts_blocks : forall j q m,
  ancestor_at j q = Some m -> n_parent m = None ->
  List.length (ancestor_parts q) = j /\
  Forall (fun b => b = "    " \/ b = "│   ") (ancestor_parts q).
Proof.
  induction j as [|j IH]; intros [p h par l d] m H Hm; cbn in *.
  - injection H as <-. cbn in Hm. subst. cbn. auto.
  - destruct par as [q|]; [|discriminate].
    destruct (IH q m H Hm) as [H1 H2]. cbn. split; [lia|].
    constructor; [destruct l; auto|exact H2].
Qed.

Lemma str_app_nil_r : forall s, String.append s "" = s.
Proof. induction s; cbn; congruence. Qed.

Lemma str_app_assoc : forall a b c,
  String.append (String.append a b) c = String.append a (String.append b c).
Proof. induction a; intros; cbn; congruence. Qed.

Lemma concat_snoc : forall l x,
  String.concat "" (l ++ [x]) = String.append (String.concat "" l) x.
Proof.
  induction l as [|a l IH]; intros x; [reflexivity|].
  destruct l as [|b l].
  - reflexivity.
  - pose proof (IH x) as H. cbn [app] in H |- *.
    transitivity (String.append a (String.append "" (String.concat "" (b :: l ++ [x]))));
      [reflexivity|].
    rewrite H. cbn [String.append]. symmetry. apply str_app_assoc.
Qed.

(** With fuel beyond the longest path, [make_tree lower] of a directory never stops
    early. *)
Lemma make_tree_no_error : forall fuel fs r hl par last,
  os_path_isdir fs r = true ->
  list_max (map (fun e => List.length (fst e)) (entries fs)) < fuel + List.length r ->
  snd (make_tree lower fuel fs r hl par last) = None.
Proof.
  induction fuel as [|fuel IH]; intros fs r hl par last Hd Hf;
    unfold os_path_isdir in Hd;
    destruct (lookup (entries fs) r) as [[]|] eqn:L; try discriminate.
  - apply lookup_some_in, entry_length_le in L. lia.
  - cbn [make_tree]. rewrite L.
    match goal with |- context [children_loop ?a ?b ?c ?d ?e ?f] =>
      pose proof (children_loop_none a b c d e f) as HN;
      destruct (children_loop a b c d e f) as [ns err] end.
    cbn in HN |- *. apply HN. intros c b Hc Hcd.
    apply children_is_child in Hc as [_ Hl]. apply IH; [exact Hcd|lia].
Qed.

(** X4: the lines [File.print_as_tree] prints. After the header and the line of
    [self.directory], every line is a node strictly below the directory, drawn
    as one four-column block (["    "] or ["│   "]) per level below the first,
    then a branch glyph, a space and its [displayname]. *)
Theorem tree_lines_layout : forall fs f,
  let root := mk_node (directory f) (path_str (f_path f)) None false in
  exists rest,
    fst (tree_lines lower fs f) =
      String.append "Absolute path: " (path_str (f_path f))
        :: displayname fs root :: map (displayable fs) rest /\
    forall n, In n rest ->
      path_prefix (directory f) (np n) = true /\
      exists blocks glyph,
        S (List.length (directory f) + List.length blocks) = List.length (np n) /\
        Forall (fun b => b = "    " \/ b = "│   ") blocks /\
        (glyph = "├──" \/ glyph = "└──") /\
        displayable fs n =
          String.append (String.concat "" blocks)
            (String.append glyph (String.append " " (displayname fs n))).
Proof.
  intros fs f root.
  destruct (make_tree_head (tree_fuel fs) fs (directory f) (path_str (f_path f)) None false)
    as [rest H].
  pose proof (make_tree_below (tree_fuel fs) fs (directory f) (path_str (f_path f)) None false)
    as Hb.
  exists rest. unfold tree_lines.
  destruct (make_tree lower (tree_fuel fs) fs (directory f) (path_str (f_path f)) None false)
    as [ns err]. cbn in H, Hb. subst ns. split; [reflexivity|].
  intros n Hn. destruct (Hb n Hn) as [k [Ha [Hp [Hl _]]]].
  split; [exact Hp|].
  destruct n as [p h par l d]. cbn in Ha, Hl.
  destruct par as [q|]; [|discriminate].
  destruct (ancestor_parts_blocks k q root Ha eq_refl) as [Hlen HF].
  exists (rev (ancestor_parts q)), (if l then "└──" else "├──").
  split; [rewrite length_rev; cbn; lia|].
  split; [apply Forall_rev; exact HF|].
  split; [destruct l; auto|].
  unfold displayable. cbn [n_parent n_is_last rev]. apply concat_snoc.
Qed.

(** X5: the exception the session's [print_as_tree] raises after printing is
    the one that stops [make_tree lower]'s listing of [self.directory]: none when
    it is a directory. *)
Theorem print_as_tree_refines_tree : forall f s,
  print_as_tree f s =
    match snd (tree_lines lower (fs s) f) with
    | None => Ok tt (set_out (out s ++ [ERender (f_path f)]) s)
    | Some e => Err e (set_out (out s ++ [ERender (f_path f)]) s)
    end.
Proof.
  intros f s. unfold print_as_tree, tree_lines, bind, emit, modify, get.
  cbn [res_state].
  change (fs (set_out (out s ++ [ERender (f_path f)]) s)) with (fs s).
  destruct (os_path_isdir (fs s) (directory f)) eqn:D.
  - rewrite (surjective_pairing (make_tree lower _ _ _ _ _ _)). cbn [snd].
    rewrite make_tree_no_error; [reflexivity|exact D|].
    unfold os_path_isdir in D.
    destruct (lookup (entries (fs s)) (directory f)) as [[]|] eqn:L; try discriminate.
    apply lookup_some_in, entry_length_le in L. unfold tree_fuel. cbn. lia.
  - unfold os_path_isdir in D. unfold os_path_exists.
    destruct (tree_fuel (fs s)) as [|m]; cbn [make_tree];
      destruct (lookup (entries (fs s)) (directory f)) as [[]|]; try discriminate;
      reflexivity.
Qed.

(** X6: when [self.directory] is not a directory, [print_as_tree] prints the
    header and the directory's own line, then [iterdir] raises. *)
Theorem tree_lines_not_dir : forall fs f,
  os_path_isdir fs (directory f) = false ->
  tree_lines lower fs f =
    ([String.append "Absolute path: " (path_str (f_path f));
      displayname fs (mk_node (directory f) (path_str (f_path f)) None false)],
     Some (if os_path_exists fs (directory f) then "NotADirectoryError"
           else "FileNotFoundError")).
Proof.
  intros fs f D. unfold os_path_isdir in D. unfold tree_lines, os_path_exists.
  destruct (tree_fuel fs) as [|m]; cbn [make_tree];
    destruct (lookup (entries fs) (directory f)) as [[]|]; try discriminate;
    reflexivity.
Qed.

Lemma dirname_is_child : forall p, p <> [] -> is_child (dirname p) p = true.
Proof.
  intros p H. pose proof (app_removelast_last "" H) as E.
  unfold is_child, dirname. set (r := removelast p). rewrite E.
  rewrite path_prefix_app, length_app. cbn. rewrite Nat.add_comm. apply Nat.eqb_refl.
Qed.

Lemma tree_fuel_enough : forall fs r,
  os_path_isdir fs r = true ->
  list_max (map (fun e => List.length (fst e)) (entries fs)) < tree_fuel fs + List.length r.
Proof.
  intros fs r D. unfold os_path_isdir in D.
  destruct (lookup (entries fs) r) as [[]|] eqn:L; try discriminate.
  apply lookup_some_in, entry_length_le in L. unfold tree_fuel. lia.
Qed.

(** A file among the children yields its [leaf] node unless an exception
    stopped the loop. *)
Lemma children_loop_covers : forall fs sub leaf total cs count c,
  In c cs -> os_path_isdir fs c = false ->
  snd (children_loop fs sub leaf total cs count) = None ->
  exists b, In (leaf c b) (fst (children_loop fs sub leaf total cs count)).
Proof.
  intros fs sub leaf total cs. induction cs as [|c0 cs IH]; intros count c Hc Hd Hn;
    [destruct Hc|].
  specialize (IH (S count) c). cbn in Hn |- *.
  destruct Hc as [<-|Hc].
  - rewrite Hd in Hn |- *. cbn in Hn |- *.
    destruct (children_loop fs sub leaf total cs (S count)).
    exists (Nat.eqb count total). left. reflexivity.
  - specialize (IH Hc Hd).
    destruct (if os_path_isdir fs c0 then sub c0 (Nat.eqb count total)
              else ([leaf c0 (Nat.eqb count total)], None)) as [ns [e|]].
    + discriminate.
    + destruct (children_loop fs sub leaf total cs (S count)) as [ns' err'].
      cbn in Hn, IH |- *. destruct (IH Hn) as [b Hb].
      exists b. apply in_or_app. right. exact Hb.
Qed.

(** X7: [print_as_tree] of a record whose file exists in its directory draws the
    file as a child of the directory line, its name in [bcolors.OKGREEN]. *)
Theorem tree_highlights_record : forall fs f size age,
  f_path f <> [] ->
  directory f = dirname (f_path f) ->
  os_path_isdir fs (directory f) = true ->
  lookup (entries fs) (f_path f) = Some (KFile size age) ->
  exists glyph, (glyph = "├──" \/ glyph = "└──") /\
    In (String.append glyph (String.append " "
          (String.append OKGREEN (String.append (path_name (f_path f)) ENDC))))
       (fst (tree_lines lower fs f)).
Proof.
  intros fs f size age Hne Hdir D L.
  set (hl := path_str (f_path f)).
  pose proof (make_tree_no_error (tree_fuel fs) fs (directory f) hl None false D
                (tree_fuel_enough fs _ D)) as HN.
  assert (Hin : In (f_path f) (sort_paths lower (iterdir fs (directory f)))).
  { rewrite sort_paths_in. unfold iterdir. apply in_map_iff.
    exists (f_path f, KFile size age). split; [reflexivity|].
    apply filter_In. split; [apply lookup_some_in; exact L|].
    cbn. rewrite Hdir. apply dirname_is_child. exact Hne. }
  assert (Hf : os_path_isdir fs (f_path f) = false).
  { unfold os_path_isdir. rewrite L. reflexivity. }
  unfold os_path_isdir in D.
  destruct (lookup (entries fs) (directory f)) as [[]|] eqn:LD; try discriminate.
  unfold tree_lines. fold hl. unfold tree_fuel in HN |- *. cbn [make_tree] in HN |- *.
  rewrite LD in HN |- *.
  set (me := mk_node (directory f) hl None false) in *.
  match goal with |- context [children_loop ?a ?b ?c ?d ?e ?g] =>
    pose proof (children_loop_covers a b c d e g (f_path f) Hin Hf) as Hcov;
    destruct (children_loop a b c d e g) as [ns err] end.
  cbn in HN, Hcov |- *. destruct (Hcov HN) as [b Hb].
  exists (if b then "└──" else "├──"). split; [destruct b; auto|].
  right. right. apply in_map_iff.
  exists (mk_node (f_path f) hl (Some me) b). split; [|exact Hb].
  unfold displayable, displayname. cbn [n_parent n_is_last mk_node me ancestor_parts].
  rewrite Hf. unfold hl. rewrite String.eqb_refl. destruct b; reflexivity.
Qed.

(** * The order of the listing *)

Lemma cp_ltb_asym : forall a b, cp_ltb a b = true -> cp_ltb b a = false.
Proof.
  induction a as [|x a IH]; intros [|y b] H; cbn in H |- *; try discriminate; try reflexivity.
  destruct (N.compare_spec x y) as [E|E|E].
  - subst y. rewrite N.ltb_irrefl, N.eqb_refl in H |- *. apply IH, H.
  - assert (N.ltb y x = false) as -> by (apply N.ltb_ge; lia).
    assert (N.eqb y x = false) as -> by (apply N.eqb_neq; lia). reflexivity.
  - assert (N.ltb x y = false) as L by (apply N.ltb_ge; lia).
    assert (N.eqb x y = false) as Q by (apply N.eqb_neq; lia).
    rewrite L, Q in H. discriminate.
Qed.

Lemma insert_path_perm : forall x l, Permutation (x :: l) (insert_path lower x l).
Proof.
  intros x l. induction l as [|y l IH]; cbn; [reflexivity|].
  destruct (cp_ltb (tree_key lower y) (tree_key lower x)); [|reflexivity].
  etransitivity; [apply perm_swap|]. constructor. exact IH.
Qed.

Lemma sort_paths_perm : forall l, Permutation l (sort_paths lower l).
Proof.
  induction l as [|x l IH]; cbn; [reflexivity|].
  etransitivity; [constructor; exact IH|]. apply insert_path_perm.
Qed.

Lemma insert_path_sorted : forall x l,
  Sorted (fun a b => cp_ltb (tree_key lower b) (tree_key lower a) = false) l ->
  Sorted (fun a b => cp_ltb (tree_key lower b) (tree_key lower a) = false) (insert_path lower x l).
Proof.
  intros x l. induction l as [|y l IH]; intros Hs; cbn.
  - repeat constructor.
  - destruct (cp_ltb (tree_key lower y) (tree_key lower x)) eqn:E.
    + inversion Hs as [|? ? Hl Hh]; subst. constructor; [apply IH, Hl|].
      destruct l as [|z l]; cbn; [constructor; apply cp_ltb_asym, E|].
      inversion Hh; subst.
      destruct (cp_ltb (tree_key lower z) (tree_key lower x)); constructor;
        [assumption|apply cp_ltb_asym, E].
    + constructor; [exact Hs|]. constructor. exact E.
Qed.

Lemma sort_paths_sorted : forall l,
  Sorted (fun a b => cp_ltb (tree_key lower b) (tree_key lower a) = false) (sort_paths lower l).
Proof. induction l as [|x l IH]; cbn; [constructor|]. apply insert_path_sorted, IH. Qed.

Lemma filter_none_deeper : forall dl (ns : list node),
  Forall (fun n => dl < n_depth n) ns ->
  filter (fun n => Nat.eqb (n_depth n) dl) ns = [].
Proof.
  intros dl ns H. induction H as [|n ns Hn _ IH]; [reflexivity|]. cbn.
  destruct (Nat.eqb_spec (n_depth n) dl); [lia|exact IH].
Qed.

(** The nodes of the loop at the level [dl] of its own nodes: one per child,
    in order, numbered from [count]. *)
Lemma children_loop_level : forall fs sub leaf total cs count dl,
  (forall c b, In c cs -> exists rest, fst (sub c b) = leaf c b :: rest /\
                                   Forall (fun n => dl < n_depth n) rest) ->
  (forall c b, n_depth (leaf c b) = dl /\ np (leaf c b) = c /\ n_is_last (leaf c b) = b) ->
  snd (children_loop fs sub leaf total cs count) = None ->
  let top := filter (fun n => Nat.eqb (n_depth n) dl)
                    (fst (children_loop fs sub leaf total cs count)) in
  map np top = cs /\
  map n_is_last top = map (fun i => Nat.eqb i total) (seq count (List.length cs)).
Proof.
  intros fs sub leaf total cs. induction cs as [|c cs IH]; intros count dl Hsub Hleaf Hn top;
    [split; reflexivity|].
  subst top. cbn in Hn |- *.
  set (b := Nat.eqb count total) in *.
  assert (Hfirst : forall ns err,
    (if os_path_isdir fs c then sub c b else ([leaf c b], None)) = (ns, err) ->
    filter (fun n => Nat.eqb (n_depth n) dl) ns = [leaf c b]).
  { intros ns err E. destruct (Hleaf c b) as (Hd & _ & _).
    destruct (os_path_isdir fs c).
    - destruct (Hsub c b (or_introl eq_refl)) as (rest & Hr & HF).
      rewrite E in Hr. cbn in Hr. subst ns. cbn. rewrite Hd, Nat.eqb_refl.
      rewrite filter_none_deeper by exact HF. reflexivity.
    - injection E as <- _. cbn. rewrite Hd, Nat.eqb_refl. reflexivity. }
  destruct (if os_path_isdir fs c then sub c b else ([leaf c b], None)) as [ns [e|]] eqn:E;
    [discriminate|].
  specialize (IH (S count) dl).
  destruct (children_loop fs sub leaf total cs (S count)) as [ns' err'].
  cbn in Hn, IH |- *.
  destruct IH as [IH1 IH2]; [intros c' b' Hc'; apply Hsub; right; exact Hc'|exact Hleaf|exact Hn|].
  rewrite filter_app, (Hfirst _ _ eq_refl). cbn.
  destruct (Hleaf c b) as (_ & Hp & Hl). rewrite Hp, Hl, IH1, IH2. split; reflexivity.
Qed.

(** X8: the lines [make_tree lower] yields one level below [self.directory] are its
    entries ([iterdir]), each once, sorted by [str(path).lower()]; the [i]-th
    of [k] is marked [is_last] (drawn with ["└──"]) exactly when [i = k]. *)
Theorem tree_lists_children_sorted : forall fs f,
  os_path_isdir fs (directory f) = true ->
  let cs := sort_paths lower (iterdir fs (directory f)) in
  let top := filter (fun n => Nat.eqb (n_depth n) 1)
               (fst (make_tree lower (tree_fuel fs) fs (directory f) (path_str (f_path f)) None false)) in
  map np top = cs /\
  map n_is_last top = map (fun i => Nat.eqb i (List.length cs)) (seq 1 (List.length cs)) /\
  Permutation (iterdir fs (directory f)) cs /\
  Sorted (fun a b => cp_ltb (tree_key lower b) (tree_key lower a) = false) cs.
Proof.
  intros fs f D cs top.
  split; [|split; [|split; [apply sort_paths_perm|apply sort_paths_sorted]]];
  pose proof (make_tree_no_error (tree_fuel fs) fs (directory f) (path_str (f_path f)) None false D
                (tree_fuel_enough fs _ D)) as HN;
  unfold os_path_isdir in D;
  destruct (lookup (entries fs) (directory f)) as [[]|] eqn:LD; try discriminate;
  subst top; unfold tree_fuel in HN |- *; cbn [make_tree] in HN |- *; rewrite LD in HN |- *;
  set (me := mk_node (directory f) (path_str (f_path f)) None false) in *;
  match goal with |- context [children_loop ?a ?b ?c ?d ?e ?g] =>
    pose proof (children_loop_level a b c d e g 1) as HL;
    destruct (children_loop a b c d e g) as [ns err] end;
  cbn in HN, HL |- *;
  (destruct HL as [HL1 HL2];
   [ intros c b _;
     destruct (make_tree_head (list_max (map (fun e => List.length (fst e)) (entries fs)))
                 fs c (path_str (f_path f)) (Some me) b) as [rest Hrest];
     exists rest; split; [exact Hrest|];
     apply Forall_forall; intros n Hn;
     assert (Hn' : In n (tl (fst (make_tree lower (list_max (map (fun e => List.length (fst e)) (entries fs)))
                                   fs c (path_str (f_path f)) (Some me) b))))
       by (rewrite Hrest; exact Hn);
     destruct (make_tree_below _ _ _ _ _ _ _ Hn') as (k & _ & _ & _ & Hd);
     cbn [n_depth mk_node me] in Hd; lia
   | intros c b; repeat split
   | exact HN
   | ]);
  [exact HL1|exact HL2].
Qed.

End TreeProofs.

(** * [main] *)

(** X9: with an [order_by] other than ["age"] and ["size"], [main] scans the
    directory (the records join [File.files]), then reading the unbound
    [files] raises [UnboundLocalError]; no session starts, nothing is
    printed or removed. *)
Theorem main_unknown_order_by : forall root order_by fuel st,
  order_by <> "age" -> order_by <> "size" ->
  main root order_by fuel st =
    Err "UnboundLocalError"
        (set_all_files (all_files st ++ flat_map (record_of (fs st)) (glob (fs st) root)) st).
Proof.
  intros root order_by fuel st Ha Hs.
  unfold main. erewrite bind_ok by apply scan_ok. cbv beta.
  unfold bind at 1, get.
  apply String.eqb_neq in Ha, Hs. unfold bind at 1. rewrite Ha, Hs. reflexivity.
Qed.

(** X10: with ["age"] or ["size"] and a registry that is not empty after the
    scan, [main] starts [transition] on the ranking of the whole registry,
    cursor on its first record, with the filesystem, input and output as
    they were. *)
Theorem main_starts_session : forall root order_by fuel st rk,
  let A := all_files st ++ flat_map (record_of (fs st)) (glob (fs st) root) in
  (order_by = "age" /\ rk = files_by_age A) \/
  (order_by = "size" /\ rk = files_by_size A) ->
  rk <> [] ->
  main root order_by fuel st =
    transition fuel 0 (set_cur 0 (set_files rk (set_all_files A st))).
Proof.
  intros root order_by fuel st rk A Hrk Hne.
  unfold main. erewrite bind_ok by apply scan_ok. cbv beta.
  unfold bind at 1, get. fold A.
  destruct Hrk as [[-> ->]|[-> ->]]; cbn -[files_by_age files_by_size transition A];
    fold A.
  - destruct (files_by_age A) as [|f fl]; [congruence|]. reflexivity.
  - destruct (files_by_size A) as [|f fl]; [congruence|]. reflexivity.
Qed.

(** * Witnesses *)

Lemma transition_returns_on_last_witness :
  cursor_in_range (ex_session ex_fs ["s"; "s"]) /\
  transition 10 0 (ex_session ex_fs ["s"; "s"]) =
    Ok tt (res_state (transition 10 0 (ex_session ex_fs ["s"; "s"]))) /\
  cursor_on_last (res_state (transition 10 0 (ex_session ex_fs ["s"; "s"]))).
Proof.
  assert (H1 : cursor_in_range (ex_session ex_fs ["s"; "s"])).
  { unfold cursor_in_range. cbn. lia. }
  assert (H2 : transition 10 0 (ex_session ex_fs ["s"; "s"]) =
    Ok tt (res_state (transition 10 0 (ex_session ex_fs ["s"; "s"])))).
  { vm_compute. reflexivity. }
  split; [exact H1|]. split; [exact H2|].
  exact (transition_returns_on_last 10 0 _ _ H1 H2).
Defined.

Lemma tree_lines_not_dir_witness :
  os_path_isdir ex_fs (directory (file_fields ["y"; "b"] 1 1)) = false /\
  tree_lines ascii_lower ex_fs (file_fields ["y"; "b"] 1 1) =
    (["Absolute path: /y/b"; "y"], Some "FileNotFoundError").
Proof.
  split; [reflexivity|].
  rewrite (tree_lines_not_dir ascii_lower ex_fs (file_fields ["y"; "b"] 1 1)); reflexivity.
Defined.

Lemma tree_highlights_record_witness :
  f_path ex_a <> [] /\ directory ex_a = dirname (f_path ex_a) /\
  os_path_isdir ex_fs (directory ex_a) = true /\
  lookup (entries ex_fs) (f_path ex_a) = Some (KFile 10 3) /\
  exists glyph, (glyph = "├──" \/ glyph = "└──") /\
    In (String.append glyph (String.append " "
          (String.append OKGREEN (String.append (path_name (f_path ex_a)) ENDC))))
       (fst (tree_lines ascii_lower ex_fs ex_a)).
Proof.
  split; [discriminate|]. split; [reflexivity|]. split; [reflexivity|].
  split; [reflexivity|].
  apply (tree_highlights_record ascii_lower ex_fs ex_a 10 3);
    [discriminate|reflexivity|reflexivity|reflexivity].
Defined.

Lemma main_unknown_order_by_witness :
  "name" <> "age" /\ "name" <> "size" /\
  main ["x"] "name" 10 (ex_state []) =
    Err "UnboundLocalError"
        (set_all_files (flat_map (record_of ex_fs) (glob ex_fs ["x"])) (ex_state [])).
Proof.
  split; [discriminate|]. split; [discriminate|].
  apply (main_unknown_order_by ["x"] "name" 10 (ex_state [])); discriminate.
Defined.

Lemma main_starts_session_witness :
  files_by_size (flat_map (record_of ex_fs) (glob ex_fs ["x"])) <> [] /\
  main ["x"] "size" 10 (ex_state ["s"; "s"]) =
    transition 10 0
      (set_cur 0 (set_files (files_by_size (flat_map (record_of ex_fs) (glob ex_fs ["x"])))
        (set_all_files (flat_map (record_of ex_fs) (glob ex_fs ["x"])) (ex_state ["s"; "s"])))).
Proof.
  assert (H : files_by_size (flat_map (record_of ex_fs) (glob ex_fs ["x"])) <> []).
  { vm_compute. discriminate. }
  split; [exact H|].
  apply (main_starts_session ["x"] "size" 10 (ex_state ["s"; "s"])); [right; split|];
    reflexivity || exact H.
Defined.

Lemma rmtree_directory_stays_gone_witness :
  at_prompt (ex_session ex_fs ["D"]) ex_a /\
  inputs (ex_session ex_fs ["D"]) = "D" :: [] /\
  shutil_rmtree (fs (ex_session ex_fs ["D"])) (directory ex_a) = inr (mkFS [] []) /\
  forall p k,
    In (p, k) (entries (fs (res_state (transition 3 0 (ex_session ex_fs ["D"]))))) ->
    path_prefix (directory ex_a) p = false.
Proof.
  assert (Hp : at_prompt (ex_session ex_fs ["D"]) ex_a).
  { apply ex_a_at_prompt; left; reflexivity. }
  assert (Hr : shutil_rmtree (fs (ex_session ex_fs ["D"])) (directory ex_a) = inr (mkFS [] [])).
  { reflexivity. }
  split; [exact Hp|]. split; [reflexivity|]. split; [exact Hr|].
  exact (rmtree_directory_stays_gone 2 0 (ex_session ex_fs ["D"]) ex_a [] _ Hp eq_refl Hr).
Defined.

Lemma tree_lists_children_sorted_witness :
  let fs0 := mkFS [(["x"], KDir); (["x"; "b"], KFile 1 1); (["x"; "A"], KDir);
                   (["x"; "A"; "c"], KFile 1 1)] [] in
  let f := file_fields ["x"; "b"] 1 1 in
  os_path_isdir fs0 (directory f) = true /\
  sort_paths ascii_lower (iterdir fs0 (directory f)) = [["x"; "A"]; ["x"; "b"]] /\
  let cs := sort_paths ascii_lower (iterdir fs0 (directory f)) in
  let top := filter (fun n => Nat.eqb (n_depth n) 1)
               (fst (make_tree ascii_lower (tree_fuel fs0) fs0 (directory f) (path_str (f_path f)) None false)) in
  map np top = cs /\
  map n_is_last top = map (fun i => Nat.eqb i (List.length cs)) (seq 1 (List.length cs)) /\
  Permutation (iterdir fs0 (directory f)) cs /\
  Sorted (fun a b => cp_ltb (tree_key ascii_lower b) (tree_key ascii_lower a) = false) cs.
Proof.
  intros fs0 f.
  assert (D : os_path_isdir fs0 (directory f) = true) by reflexivity.
  split; [exact D|]. split; [vm_compute; reflexivity|].
  exact (tree_lists_children_sorted ascii_lower fs0 f D).
Defined.
